(** * Toolchain configuration loader of the goma server (package [command])

    A shallow embedding of the configuration distribution code:
    [ConfigMapBucket] (the config map source), [ConfigStore], the
    reconciliation pass [ConfigMapLoader.Load], the descriptor fetcher
    [loadConfigs] with its worker pool, and the helpers [checkPrebuilt],
    [checkSelector] and [mergePlatformProperties].

    Go values are modelled as follows.
    - [string] is a byte string; map[string]T is a [gmap string T], the nil
      map being the empty map.
    - a function returning [(T, error)] returns a [result T].
    - the storage service, the protobuf decoder and the clock are fields of
      the records the Go code receives them in, or section variables.
    - the order in which Go ranges over a map, and the order in which the
      goroutines of the errgroup finish, are explicit arguments: every
      theorem about them is stated for all orders. *)

From stdpp Require Import gmap strings list fin_maps sorting.
From Stdlib Require Import ZArith Ascii.

Open Scope string_scope.
Open Scope list_scope.

(** ** Go strings and the [strings] and [path] packages *)

Module GoStrings.

(** [strings.HasPrefix(s, prefix)]. *)
Fixpoint HasPrefix (s prefix : string) : bool :=
  match prefix, s with
  | EmptyString, _ => true
  | String c p, String d s' => if Ascii.eqb c d then HasPrefix s' p else false
  | String _ _, EmptyString => false
  end.

(** [strings.Index(s, substr)]: the byte offset of the first occurrence of
    [substr] in [s], or [-1]. *)
Fixpoint Index (s substr : string) : Z :=
  if HasPrefix s substr then 0%Z
  else match s with
       | EmptyString => (-1)%Z
       | String _ s' => let i := Index s' substr in
                        if (i <? 0)%Z then (-1)%Z else (i + 1)%Z
       end.

(** The slice expressions [s[:i]] and [s[i:]] for [0 <= i <= len(s)]. *)
Definition slice_to (s : string) (i : Z) : string :=
  String.substring 0 (Z.to_nat i) s.

Fixpoint drop_bytes (n : nat) (s : string) : string :=
  match n, s with
  | O, _ => s
  | S n', String _ s' => drop_bytes n' s'
  | S _, EmptyString => EmptyString
  end.

Definition slice_from (s : string) (i : Z) : string :=
  drop_bytes (Z.to_nat i) s.

Definition is_slash (c : ascii) : bool := Ascii.eqb c "/"%char.

(** [strings.Split(s, "/")]: the elements between slashes; never empty. *)
Fixpoint splitSlash (s : string) : list string :=
  match s with
  | EmptyString => [EmptyString]
  | String c s' =>
      if is_slash c then EmptyString :: splitSlash s'
      else match splitSlash s' with
           | h :: t => String c h :: t
           | [] => [String c EmptyString]
           end
  end.

Fixpoint joinSlash (l : list string) : string :=
  match l with
  | [] => EmptyString
  | [x] => x
  | x :: t => x +:+ "/" +:+ joinSlash t
  end.

Definition nonempty (s : string) : bool := negb (String.eqb s "").

(** [path.Base]: "." for the empty path; trailing slashes are stripped;
    the last element is returned, "/" when the path is slashes only. *)
Definition Base (p : string) : string :=
  if String.eqb p "" then "."
  else match List.rev (List.filter nonempty (splitSlash p)) with
       | e :: _ => e
       | [] => "/"
       end.

(** One element of [path.Clean]'s loop; [out] is the output written so
    far, last element first. Empty and "." elements vanish; ".." removes
    the last real element when there is one, is dropped at the root, and
    is kept otherwise. *)
Definition cleanStep (rooted : bool) (out : list string) (e : string)
  : list string :=
  if String.eqb e "" || String.eqb e "." then out
  else if String.eqb e ".." then
    match out with
    | top :: rest =>
        if String.eqb top ".." then (if rooted then out else e :: out)
        else rest
    | [] => if rooted then [] else [e]
    end
  else e :: out.

(** [path.Clean]. *)
Definition Clean (p : string) : string :=
  match p with
  | EmptyString => "."
  | String c _ =>
      let rooted := is_slash c in
      let out := List.rev (List.fold_left (cleanStep rooted) (splitSlash p) []) in
      if rooted then "/" +:+ joinSlash out
      else match out with
           | [] => "."
           | _ => joinSlash out
           end
  end.

Fixpoint hasSlash (s : string) : bool :=
  match s with
  | EmptyString => false
  | String c s' => is_slash c || hasSlash s'
  end.

(** The [dir] half of [path.Split]: everything up to and including the
    last slash. *)
Fixpoint dirPart (s : string) : string :=
  match s with
  | EmptyString => EmptyString
  | String c s' =>
      if is_slash c || hasSlash s' then String c (dirPart s')
      else EmptyString
  end.

(** [path.Dir]. *)
Definition Dir (p : string) : string := Clean (dirPart p).

(** [path.Join(a, b)]: empty elements are ignored, the rest is joined by
    slashes and cleaned; the empty string when both are empty. *)
Definition Join (a b : string) : string :=
  if String.eqb a "" && String.eqb b "" then ""
  else if String.eqb a "" then Clean b
  else if String.eqb b "" then Clean a
  else Clean (a +:+ "/" +:+ b).

(** [strings.SplitN(s, "/", 2)]: cut at the first slash, when there is
    one. *)
Fixpoint cutSlash (s : string) : string * option string :=
  match s with
  | EmptyString => (EmptyString, None)
  | String c s' =>
      if is_slash c then (EmptyString, Some s')
      else let '(h, t) := cutSlash s' in (String c h, t)
  end.

End GoStrings.
Export GoStrings.

(** ** Errors

    [errors.New] and [fmt.Errorf] values are kept as the format and its
    arguments; the two sentinels the code compares by identity are
    constructors of their own. [ErrExternal] is an error of the storage
    service, of the decoder or of the file system. *)

Record Selector := {
  sel_Name : string;
  sel_Version : string;
  sel_Target : string;
  sel_BinaryHash : string;
}.

Inductive error :=
  | ErrNoUpdate
  | ErrObjectNotExist
  | ErrExternal (msg : string)
  | Errorf (format : string) (args : list fmtArg)
with fmtArg :=
  | ArgS (s : string)
  | ArgSel (s : option Selector)
  | ArgErr (e : error).

Inductive result (A : Type) :=
  | Ok (a : A)
  | Err (e : error).
Arguments Ok {A} a.
Arguments Err {A} e.

Definition is_ok {A} (r : result A) : bool :=
  match r with Ok _ => true | Err _ => false end.

(** The value half of a Go [(value, error)] return: nil on error. *)
Definition value_of {A} (r : result (list A)) : list A :=
  match r with Ok l => l | Err _ => [] end.

(** ** Data model (the messages of proto/command the loader touches) *)

(** Modelled from the spec: the enum of proto/command is not part of the
    sources. The code names its unknown value only; the other two stand
    for the "recognized, non-unknown" path-resolution modes. *)
Inductive CmdDescriptor_PathType :=
  | CmdDescriptor_UNKNOWN_PATH_TYPE
  | CmdDescriptor_POSIX
  | CmdDescriptor_WINDOWS.

Record CmdDescriptor_Setup := {
  setup_PathType : CmdDescriptor_PathType;
}.

Record CmdDescriptor := {
  cd_Selector : option Selector;
  cd_Setup : option CmdDescriptor_Setup;
}.

(** [Platform_Property] and [RemoteexecPlatform_Property]: a name and a
    value. *)
Record Property := {
  prop_Name : string;
  prop_Value : string;
}.

Record Platform := {
  plat_Properties : list Property;
}.

Record RemoteexecPlatform := {
  rbe_Properties : list Property;
  rbe_HasNsjail : bool;
}.

Record PlatformRuntimeConfig := {
  prc_Dimensions : list string;
  prc_HasNsjail : bool;
}.

(** Modelled from the spec: the message type ACL of proto/auth is not part
    of the sources; a record carries "the runtime's access-control policy
    reference", kept here as an opaque name. *)
Definition ACL := string.

Record RuntimeConfig := {
  rc_Name : string;
  rc_ServiceAddr : string;
  rc_Platform : option Platform;
  rc_PlatformRuntimeConfig : option PlatformRuntimeConfig;
  rc_AllowedPrebuilts : list string;
  rc_DisallowedPrebuilts : list string;
  rc_DisallowedCommands : list Selector;
  rc_Acl : option ACL;
}.

Record Config := {
  cfg_Target : option string;          (* Target.Addr *)
  cfg_BuildInfo : option Z;            (* BuildInfo.Timestamp *)
  cfg_CmdDescriptor : option CmdDescriptor;
  cfg_RemoteexecPlatform : option RemoteexecPlatform;
  cfg_Dimensions : list string;
  cfg_Acl : option ACL;
}.

Record ConfigResp := {
  resp_VersionId : string;
  resp_Configs : list Config;
}.

(** [cmdpb.ConfigMap]: the published list of runtimes. *)
Record ConfigMapPb := {
  cm_Runtimes : list RuntimeConfig;
}.

(** [storage.ObjectAttrs]: the name and the update time are read. *)
Record ObjectAttrs := {
  attrs_Name : string;
  attrs_Updated : Z;
}.

(** ** mergePlatformProperties *)

(** The name set [m] is built from the target's properties before the
    loop and is not extended by it. A nil [platform] leaves the target as
    it is. *)
Definition mergePlatformProperties (rbePlatform : RemoteexecPlatform)
    (platform : option Platform) : RemoteexecPlatform :=
  match platform with
  | None => rbePlatform
  | Some platform =>
      let m : gset string := list_to_set (prop_Name <$> rbe_Properties rbePlatform) in
      let step (props : list Property) (p : Property) :=
        if decide (prop_Name p ∈ m) then props
        else props ++ [{| prop_Name := prop_Name p; prop_Value := prop_Value p |}] in
      {| rbe_Properties := fold_left step (plat_Properties platform)
                                     (rbe_Properties rbePlatform);
         rbe_HasNsjail := rbe_HasNsjail rbePlatform |}
  end.

(** ** checkPrebuilt and checkSelector *)

(** The [for] loop over [rc.DisallowedPrebuilts]: the first matching
    prefix is reported. *)
Fixpoint firstPrefixOf (prebuiltName : string) (prefixes : list string)
  : option string :=
  match prefixes with
  | [] => None
  | prefix :: rest =>
      if HasPrefix prebuiltName prefix then Some prefix
      else firstPrefixOf prebuiltName rest
  end.

(** The [allowed] flag computed by the second loop. *)
Fixpoint anyPrefixOf (prebuiltName : string) (prefixes : list string) : bool :=
  match prefixes with
  | [] => false
  | prefix :: rest =>
      if HasPrefix prebuiltName prefix then true
      else anyPrefixOf prebuiltName rest
  end.

(** The name the checks are applied to: the base of what precedes the
    first "/descriptors". *)
Definition prebuiltNameOf (objName : string) : option string :=
  let i := Index objName "/descriptors" in
  if (i <? 0)%Z then None else Some (Base (slice_to objName i)).

Definition checkPrebuilt (rc : RuntimeConfig) (objName : string) : option error :=
  let i := Index objName "/descriptors" in
  if (i <? 0)%Z then Some (Errorf "no prebuilt dir: %s" [ArgS objName])
  else
    let prebuiltName := Base (slice_to objName i) in
    match firstPrefixOf prebuiltName (rc_DisallowedPrebuilts rc) with
    | Some prefix =>
        Some (Errorf "disallowed prebuilt %s: by %s" [ArgS objName; ArgS prefix])
    | None =>
        match rc_AllowedPrebuilts rc with
        | [] => None
        | _ =>
            if anyPrefixOf prebuiltName (rc_AllowedPrebuilts rc) then None
            else Some (Errorf "not allowed prebuilt %s" [ArgS objName])
        end
    end.

(** One deny-list entry against the selector: the four tests of the loop
    body, in order. *)
Definition selectorHit (s sel : Selector) : option error :=
  if nonempty (sel_Name s) && String.eqb (sel_Name s) (sel_Name sel) then
    Some (Errorf "%s: disallowed by name: %s" [ArgSel (Some sel); ArgS (sel_Name s)])
  else if nonempty (sel_Version s) && String.eqb (sel_Version s) (sel_Version sel) then
    Some (Errorf "%s: disallowed by version: %s" [ArgSel (Some sel); ArgS (sel_Version s)])
  else if nonempty (sel_Target s) && String.eqb (sel_Target s) (sel_Target sel) then
    Some (Errorf "%s: disallowed by target: %s" [ArgSel (Some sel); ArgS (sel_Target s)])
  else if nonempty (sel_BinaryHash s) && String.eqb (sel_BinaryHash s) (sel_BinaryHash sel) then
    Some (Errorf "%s: disallowed by binary hash: %s"
                 [ArgSel (Some sel); ArgS (sel_BinaryHash s)])
  else None.

Fixpoint checkSelectorLoop (ss : list Selector) (sel : Selector) : option error :=
  match ss with
  | [] => None
  | s :: rest =>
      match selectorHit s sel with
      | Some e => Some e
      | None => checkSelectorLoop rest sel
      end
  end.

Definition checkSelector (rc : RuntimeConfig) (sel : option Selector) : option error :=
  match sel with
  | None => Some (Errorf "no selector specified" [])
  | Some sel => checkSelectorLoop (rc_DisallowedCommands rc) sel
  end.

(** ** The storage client

    [stiface.Client] as the code uses it: bucket and object handles that
    may be nil, the listing of a bucket under a prefix, and the reading of
    one object. A listing is what the iterator yields before
    [iterator.Done], or before the error that ends it. *)

Record Client := {
  hasBucket : string → bool;
  hasObject : string → string → bool;
  listObjects : string → string → list ObjectAttrs * option error;
  readObject : string → string → result string;
}.

Definition splitGCSPath (uri : string) : result (string * string) :=
  if negb (HasPrefix uri "gs://") then
    Err (Errorf "not gs: URI: %q" [ArgS uri])
  else
    match cutSlash (slice_from uri 5) with
    | (p0, None) => Ok (p0, "")
    | (p0, Some p1) => Ok (p0, p1)
    end.

Definition storageReadAll (client : Client) (bucket name : string)
  : result string :=
  if negb (hasBucket client bucket) then
    Err (Errorf "could not find bucket %s" [ArgS bucket])
  else if negb (hasObject client bucket name) then
    Err (Errorf "could not find object %s/%s" [ArgS bucket; ArgS name])
  else readObject client bucket name.

(** ** ConfigStore *)

Record configs := {
  cs_seq : string;
  cs_configs : list Config;
}.

Record ConfigStore := {
  lastConfigs : gmap string configs;
}.

(** [sort.Strings]: bytewise lexicographic order. *)
Definition sortStrings (names : list string) : list string :=
  merge_sort (λ a b, Is_true (String.leb a b)) names.

Definition ConfigStore_List (c : ConfigStore) : list string :=
  sortStrings (fst <$> map_to_list (lastConfigs c)).

Definition ConfigStore_Set (c : ConfigStore) (name seq : string)
    (confs : list Config) : ConfigStore :=
  {| lastConfigs := <[name := {| cs_seq := seq; cs_configs := confs |}]> (lastConfigs c) |}.

(** The zero value of [configs] is read for a name that is not stored. *)
Definition ConfigStore_Seq (c : ConfigStore) (name : string) : string :=
  match lastConfigs c !! name with
  | Some cs => cs_seq cs
  | None => ""
  end.

Definition ConfigStore_Delete (c : ConfigStore) (name : string) : ConfigStore :=
  {| lastConfigs := delete name (lastConfigs c) |}.

(** [versionID] is what the store's version hook returns at this call. *)
Definition ConfigStore_ConfigResp (c : ConfigStore) (versionID : string)
  : ConfigResp :=
  let names := sortStrings (fst <$> map_to_list (lastConfigs c)) in
  {| resp_VersionId := versionID;
     resp_Configs :=
       fold_left (λ acc name,
                    match lastConfigs c !! name with
                    | Some confs => acc ++ cs_configs confs
                    | None => acc
                    end) names [] |}.

(** ** The ConfigMap interface and ConfigMapBucket *)

Class ConfigMap (T : Type) := {
  Seqs : T → result (gmap string string);
  Bucket : T → result string;
  RuntimeConfigs : T → result (gmap string RuntimeConfig);
}.

(** [cfgMap] is the outcome of [c.configMap(ctx)]: the configured map, or
    the one read from [ConfigMapFile], or the error of reading it. *)
Record ConfigMapBucket := {
  URI : string;
  cfgMap : result ConfigMapPb;
  StorageClient : Client;
  RemoteexecAddr : string;
}.

(** The loop of [Seqs] over [cm.Runtimes]. *)
Fixpoint seqsLoop (client : Client) (bucket : string)
    (runtimes : list RuntimeConfig) (m : gmap string string)
  : result (gmap string string) :=
  match runtimes with
  | [] => Ok m
  | r :: rest =>
      let obj := Join (rc_Name r) "seq" in
      match storageReadAll client bucket obj with
      | Err ErrObjectNotExist => seqsLoop client bucket rest m
      | Err e => Err e
      | Ok buf => seqsLoop client bucket rest (<[rc_Name r := buf]> m)
      end
  end.

Definition ConfigMapBucket_Seqs (c : ConfigMapBucket)
  : result (gmap string string) :=
  match splitGCSPath (URI c) with
  | Err e => Err e
  | Ok (bucket, _) =>
      match cfgMap c with
      | Err e => Err e
      | Ok cm => seqsLoop (StorageClient c) bucket (cm_Runtimes cm) ∅
      end
  end.

Definition ConfigMapBucket_Bucket (c : ConfigMapBucket) : result string :=
  match splitGCSPath (URI c) with
  | Err e => Err e
  | Ok (bucket, _) => Ok bucket
  end.

Definition withServiceAddr (rt : RuntimeConfig) (addr : string) : RuntimeConfig :=
  {| rc_Name := rc_Name rt;
     rc_ServiceAddr := addr;
     rc_Platform := rc_Platform rt;
     rc_PlatformRuntimeConfig := rc_PlatformRuntimeConfig rt;
     rc_AllowedPrebuilts := rc_AllowedPrebuilts rt;
     rc_DisallowedPrebuilts := rc_DisallowedPrebuilts rt;
     rc_DisallowedCommands := rc_DisallowedCommands rt;
     rc_Acl := rc_Acl rt |}.

Definition ConfigMapBucket_RuntimeConfigs (c : ConfigMapBucket)
  : result (gmap string RuntimeConfig) :=
  match cfgMap c with
  | Err e => Err e
  | Ok cm =>
      Ok (fold_left
            (λ (m : gmap string RuntimeConfig) rt,
               let rt := if String.eqb (rc_ServiceAddr rt) ""
                         then withServiceAddr rt (RemoteexecAddr c) else rt in
               <[rc_Name rt := rt]> m)
            (cm_Runtimes cm) ∅)
  end.

#[export] Instance ConfigMapBucket_ConfigMap : ConfigMap ConfigMapBucket := {
  Seqs := ConfigMapBucket_Seqs;
  Bucket := ConfigMapBucket_Bucket;
  RuntimeConfigs := ConfigMapBucket_RuntimeConfigs;
}.

(** A config map with fixed answers, as a test double of the interface. *)
Record fakeConfigMap := {
  fake_Seqs : result (gmap string string);
  fake_Bucket : result string;
  fake_RuntimeConfigs : result (gmap string RuntimeConfig);
}.

#[export] Instance fakeConfigMap_ConfigMap : ConfigMap fakeConfigMap := {
  Seqs := fake_Seqs;
  Bucket := fake_Bucket;
  RuntimeConfigs := fake_RuntimeConfigs;
}.

(** ** The descriptor fetcher *)

Record ConfigLoader := {
  cl_StorageClient : Client;
  cl_EnableParallel : bool;
}.

(** What one goroutine of the errgroup does to the shared state: it
    returns an error, returns nil without writing, or writes its slot. *)
Inductive outcome :=
  | Failed (e : error)
  | Dropped
  | Stored (c : Config).

(** The shared state of the worker pool: the pre-sized [confList] and the
    first error kept by the errgroup. *)
Record pool := {
  confList : list (option Config);
  egErr : option error;
}.

(** The [cmdpb.Config] a goroutine writes into its slot. *)
Definition configOf (rc : RuntimeConfig) (platform : RemoteexecPlatform)
    (attrs : ObjectAttrs) (d : CmdDescriptor) : Config :=
  {| cfg_Target := Some (rc_ServiceAddr rc);
     cfg_BuildInfo := Some (attrs_Updated attrs);
     cfg_CmdDescriptor := Some d;
     cfg_RemoteexecPlatform := Some platform;
     cfg_Dimensions := [];
     cfg_Acl := rc_Acl rc |}.

(** The listing loop keeps an object when [checkPrebuilt] accepts it and
    the base of its directory is "descriptors". *)
Definition keepObject (rc : RuntimeConfig) (attrs : ObjectAttrs) : bool :=
  match checkPrebuilt rc (attrs_Name attrs) with
  | Some _ => false
  | None => String.eqb (Base (Dir (attrs_Name attrs))) "descriptors"
  end.

(** The final loop of [loadConfigs]: nil slots are skipped, the others
    appended in index order. *)
Fixpoint compact (slots : list (option Config)) : list Config :=
  match slots with
  | [] => []
  | None :: rest => compact rest
  | Some conf :: rest => conf :: compact rest
  end.

(** A completion order [sched] of [n] goroutines under a semaphore of
    capacity [concurrent]: every goroutine finishes once, and goroutine
    [i] is only started when at most [concurrent - 1] earlier ones are
    still running, so it cannot be the [p]-th to finish unless
    [i < p + concurrent]. *)
Definition admissible (concurrent n : nat) (sched : list nat) : Prop :=
  sched ≡ₚ List.seq 0 n ∧ ∀ p i, sched !! p = Some i → i < p + concurrent.

Section Fetcher.

(** [proto.Unmarshal] into a fresh [CmdDescriptor]. *)
Variable Unmarshal : string → result CmdDescriptor.

(** [runtime.NumCPU()]. *)
Variable NumCPU : nat.

Definition loadDescriptor (client : Client) (bucket name : string)
  : result CmdDescriptor :=
  match storageReadAll client bucket name with
  | Err e => Err (Errorf "load %s: %v" [ArgS name; ArgErr e])
  | Ok buf =>
      match Unmarshal buf with
      | Err e => Err (Errorf "parse %s: %v" [ArgS name; ArgErr e])
      | Ok d => Ok d
      end
  end.

(** The body of the function handed to [eg.Go] for one listed object. *)
Definition fetchOne (client : Client) (bucket : string) (rc : RuntimeConfig)
    (platform : RemoteexecPlatform) (attrs : ObjectAttrs) : outcome :=
  match loadDescriptor client bucket (attrs_Name attrs) with
  | Err e => Failed e
  | Ok d =>
      match checkSelector rc (cd_Selector d) with
      | Some _ => Dropped
      | None =>
          match cd_Setup d with
          | None => Dropped
          | Some setup =>
              match setup_PathType setup with
              | CmdDescriptor_UNKNOWN_PATH_TYPE => Dropped
              | _ => Stored (configOf rc platform attrs d)
              end
          end
      end
  end.

(** Goroutine [i] finishes: its effect on the pool. The errgroup keeps
    the first error only. *)
Definition runWorker (client : Client) (bucket : string) (rc : RuntimeConfig)
    (platform : RemoteexecPlatform) (attrsList : list ObjectAttrs)
    (st : pool) (i : nat) : pool :=
  match attrsList !! i with
  | None => st
  | Some attrs =>
      match fetchOne client bucket rc platform attrs with
      | Failed e =>
          {| confList := confList st;
             egErr := match egErr st with None => Some e | Some e0 => Some e0 end |}
      | Dropped => st
      | Stored conf =>
          {| confList := <[i := Some conf]> (confList st); egErr := egErr st |}
      end
  end.

(** The pool after all goroutines of [sched] have finished, in that
    order. *)
Definition runPool (client : Client) (bucket : string) (rc : RuntimeConfig)
    (platform : RemoteexecPlatform) (attrsList : list ObjectAttrs)
    (sched : list nat) : pool :=
  fold_left (runWorker client bucket rc platform attrsList) sched
            {| confList := replicate (length attrsList) None; egErr := None |}.

Definition concurrentOf (parallel : bool) : nat :=
  if parallel then NumCPU * 4 else 1.

(** [sched] is the order in which the goroutines finish; it is admissible
    for [concurrentOf parallel]. *)
Definition loadConfigs (client : Client) (uri : string) (rc : RuntimeConfig)
    (platform : RemoteexecPlatform) (parallel : bool) (sched : list nat)
  : result (list Config) :=
  match splitGCSPath uri with
  | Err e => Err e
  | Ok (bucket, obj) =>
      if negb (hasBucket client bucket) then
        Err (Errorf "could not find storage bucket %s" [ArgS bucket])
      else
        match listObjects client bucket obj with
        | (_, Some e) => Err e
        | (listed, None) =>
            let attrsList := List.filter (keepObject rc) listed in
            let st := runPool client bucket rc platform attrsList sched in
            match egErr st with
            | Some e => Err e
            | None => Ok (compact (confList st))
            end
        end
  end.

(** [ConfigLoader.Load]. *)
Definition ConfigLoader_Load (c : ConfigLoader) (uri : string)
    (rc : RuntimeConfig) (sched : list nat) : result (list Config) :=
  let platform :=
    {| rbe_Properties :=
         (λ p, {| prop_Name := prop_Name p; prop_Value := prop_Value p |})
           <$> (match rc_Platform rc with
                | Some p => plat_Properties p
                | None => []
                end);
       rbe_HasNsjail :=
         match rc_PlatformRuntimeConfig rc with
         | Some prc => prc_HasNsjail prc
         | None => false
         end |} in
  match loadConfigs (cl_StorageClient c) uri rc platform (cl_EnableParallel c) sched with
  | Err e => Err e
  | Ok confs =>
      match rc_PlatformRuntimeConfig rc with
      | Some prc =>
          Ok (confs ++ [{| cfg_Target := None;
                           cfg_BuildInfo := None;
                           cfg_CmdDescriptor := None;
                           cfg_RemoteexecPlatform := Some platform;
                           cfg_Dimensions := prc_Dimensions prc;
                           cfg_Acl := rc_Acl rc |}])
      | None => Ok confs
      end
  end.

End Fetcher.

(** ** The reconciliation pass *)

Record ConfigMapLoader (T : Type) := {
  cml_ConfigMap : T;
  cml_ConfigLoader : ConfigLoader;
  cml_ConfigStore : ConfigStore;
}.
Arguments cml_ConfigMap {T} _.
Arguments cml_ConfigLoader {T} _.
Arguments cml_ConfigStore {T} _.

(** The loop over the fetched [seqs]: a fetched name leaves [deleted],
    and enters [updated] when its token is not the one [Seq] returns. *)
Definition diffSeqs (store : ConfigStore) (seqs : gmap string string)
    (deleted : gset string) : gmap string string * gset string :=
  map_fold
    (λ name seq (acc : gmap string string * gset string),
       (if decide (ConfigStore_Seq store name = seq) then acc.1
        else <[name := seq]> acc.1,
        acc.2 ∖ {[name]}))
    (∅, deleted) seqs.

(** The loop [for name := range deleted]. *)
Definition deleteAll (store : ConfigStore) (deleted : gset string) : ConfigStore :=
  set_fold (λ name s, ConfigStore_Delete s name) store deleted.

Section Reconciler.

Variable Unmarshal : string → result CmdDescriptor.

(** The order in which [range updated] visits the map. *)
Variable rangeOrder : gmap string string → list (string * string).

(** The completion order of the goroutines of the fetch for one uri. *)
Variable completion : string → list nat.

(** What the store's version hook returns. *)
Variable versionID : string.

(** The loop [for name, seq := range updated]: the first error ends the
    call, with the store as the earlier iterations left it. *)
Fixpoint reloadLoop (loader : ConfigLoader) (bucket : string)
    (runtimeConfigs : gmap string RuntimeConfig)
    (l : list (string * string)) (store : ConfigStore)
  : option error * ConfigStore :=
  match l with
  | [] => (None, store)
  | (name, seq) :: rest =>
      let uri := "gs://" +:+ bucket +:+ "/" +:+ name in
      match runtimeConfigs !! name with
      | None => (Some (Errorf "runtime config %s not found" [ArgS name]), store)
      | Some runtime =>
          if String.eqb (rc_ServiceAddr runtime) "" then
            reloadLoop loader bucket runtimeConfigs rest store
          else
            match ConfigLoader_Load Unmarshal loader uri runtime (completion uri) with
            | Err e => (Some e, store)
            | Ok confs =>
                reloadLoop loader bucket runtimeConfigs rest
                           (ConfigStore_Set store name seq confs)
            end
      end
  end.

(** [ConfigMapLoader.Load]: the response or the error, and the store as
    the call leaves it. *)
Definition Load {T : Type} `{ConfigMap T} (c : ConfigMapLoader T) (force : bool)
  : result ConfigResp * ConfigStore :=
  let store := cml_ConfigStore c in
  let deleted0 : gset string := list_to_set (ConfigStore_List store) in
  match Seqs (cml_ConfigMap c) with
  | Err e => (Err e, store)
  | Ok seqs =>
      let updated := (diffSeqs store seqs deleted0).1 in
      let deleted := (diffSeqs store seqs deleted0).2 in
      if bool_decide (size updated = 0 ∧ size deleted = 0) && negb force then
        (Err ErrNoUpdate, store)
      else
        let store := deleteAll store deleted in
        match Bucket (cml_ConfigMap c) with
        | Err e => (Err e, store)
        | Ok bucket =>
            match RuntimeConfigs (cml_ConfigMap c) with
            | Err e => (Err e, store)
            | Ok runtimeConfigs =>
                match reloadLoop (cml_ConfigLoader c) bucket runtimeConfigs
                                 (rangeOrder updated) store with
                | (Some e, store) => (Err e, store)
                | (None, store) =>
                    (Ok (ConfigStore_ConfigResp store versionID), store)
                end
            end
        end
  end.

(** The store handed to the next call. *)
Definition withStore {T : Type} (c : ConfigMapLoader T) (store : ConfigStore)
  : ConfigMapLoader T :=
  {| cml_ConfigMap := cml_ConfigMap c;
     cml_ConfigLoader := cml_ConfigLoader c;
     cml_ConfigStore := store |}.

End Reconciler.

(** ** Fixtures used by the examples *)

Definition prop (n v : string) : Property := {| prop_Name := n; prop_Value := v |}.

Definition sel (n v t h : string) : Selector :=
  {| sel_Name := n; sel_Version := v; sel_Target := t; sel_BinaryHash := h |}.

Definition runtimeOf (name addr : string) (allow deny : list string)
    (cmds : list Selector) : RuntimeConfig :=
  {| rc_Name := name;
     rc_ServiceAddr := addr;
     rc_Platform := None;
     rc_PlatformRuntimeConfig := None;
     rc_AllowedPrebuilts := allow;
     rc_DisallowedPrebuilts := deny;
     rc_DisallowedCommands := cmds;
     rc_Acl := None |}.

(** The spec's reading of a deny-list match: the entry and the selector
    agree on all four fields. *)
Definition spec_selectorEqual (s sel : Selector) : Prop :=
  sel_Name s = sel_Name sel ∧ sel_Version s = sel_Version sel ∧
  sel_Target s = sel_Target sel ∧ sel_BinaryHash s = sel_BinaryHash sel.

(** What the loop body of [checkSelector] tests: some field of the entry
    is set and equals the selector's. *)
Definition fieldHit (s sel : Selector) : Prop :=
  (sel_Name s ≠ "" ∧ sel_Name s = sel_Name sel) ∨
  (sel_Version s ≠ "" ∧ sel_Version s = sel_Version sel) ∨
  (sel_Target s ≠ "" ∧ sel_Target s = sel_Target sel) ∨
  (sel_BinaryHash s ≠ "" ∧ sel_BinaryHash s = sel_BinaryHash sel).

(** ** Readings of the fetcher used in the statements *)

(** The objects [loadConfigs] fetches for [uri]: the listing under the
    prefix, filtered, in listing order. *)
Definition attrsListOf (client : Client) (uri : string) (rc : RuntimeConfig)
  : list ObjectAttrs :=
  match splitGCSPath uri with
  | Err _ => []
  | Ok (bucket, obj) => List.filter (keepObject rc) (listObjects client bucket obj).1
  end.

Definition bucketOf (uri : string) : string :=
  match splitGCSPath uri with
  | Err _ => ""
  | Ok (bucket, _) => bucket
  end.

(** The record an outcome leaves in its slot, and the error it returns. *)
Definition storedOf (o : outcome) : option Config :=
  match o with Stored conf => Some conf | _ => None end.

Definition failedOf (o : outcome) : option error :=
  match o with Failed e => Some e | _ => None end.

(** The three per-item checks of a goroutine, as the spec lists them. *)
Definition invalidDescriptor (rc : RuntimeConfig) (d : CmdDescriptor) : Prop :=
  is_Some (checkSelector rc (cd_Selector d))
  ∨ cd_Setup d = None
  ∨ ∃ setup, cd_Setup d = Some setup
             ∧ setup_PathType setup = CmdDescriptor_UNKNOWN_PATH_TYPE.

(** The first error of a sequence of returns, as [errOnce] keeps it. *)
Fixpoint firstFailure (errs : list (option error)) : option error :=
  match errs with
  | [] => None
  | Some e :: _ => Some e
  | None :: rest => firstFailure rest
  end.

(** The spec's reading of the prebuilt-item name: the directory two
    levels above the object. *)
Definition spec_prebuiltName (objName : string) : string :=
  Base (Dir (Dir objName)).

(** The spec's reading of the listing filter. *)
Definition spec_keepObject (rc : RuntimeConfig) (attrs : ObjectAttrs) : bool :=
  String.eqb (Base (Dir (attrs_Name attrs))) "descriptors"
  && negb (anyPrefixOf (spec_prebuiltName (attrs_Name attrs)) (rc_DisallowedPrebuilts rc))
  && match rc_AllowedPrebuilts rc with
     | [] => true
     | allow => anyPrefixOf (spec_prebuiltName (attrs_Name attrs)) allow
     end.

(** The two sets [Load] computes from the store and the fetched tokens:
    [updated] and [deleted] as they stand after the loop over [seqs]. *)
Definition reloadSet (store : ConfigStore) (seqs : gmap string string)
  : gmap string string :=
  (diffSeqs store seqs (list_to_set (ConfigStore_List store))).1.

Definition deleteSet (store : ConfigStore) (seqs : gmap string string)
  : gset string :=
  (diffSeqs store seqs (list_to_set (ConfigStore_List store))).2.

(** ** A small bucket for the examples

    Three descriptors under clang/linux/descriptors (the second one a
    denied compiler), one object outside a descriptors directory, and the
    seq object of the runtime. *)

Definition demoObjects : list ObjectAttrs :=
  [ {| attrs_Name := "clang/linux/descriptors/h1"; attrs_Updated := 10 |};
    {| attrs_Name := "clang/linux/descriptors/h2"; attrs_Updated := 20 |};
    {| attrs_Name := "clang/linux/README"; attrs_Updated := 30 |};
    {| attrs_Name := "clang/linux/descriptors/h3"; attrs_Updated := 40 |} ].

Definition demoRead (name : string) : result string :=
  if String.eqb name "clang/seq" then Ok "7"
  else if String.eqb name "clang/linux/descriptors/h1" then Ok "d1"
  else if String.eqb name "clang/linux/descriptors/h2" then Ok "d2"
  else if String.eqb name "clang/linux/descriptors/h3" then Ok "d3"
  else Err ErrObjectNotExist.

Definition demoClient : Client :=
  {| hasBucket := λ bucket, String.eqb bucket "bkt";
     hasObject := λ _ _, true;
     listObjects := λ _ prefix,
       (List.filter (λ a, HasPrefix (attrs_Name a) prefix) demoObjects, None);
     readObject := λ _ name, demoRead name |}.

(** The same bucket with an unreadable second descriptor. *)
Definition brokenClient : Client :=
  {| hasBucket := hasBucket demoClient;
     hasObject := hasObject demoClient;
     listObjects := listObjects demoClient;
     readObject := λ bucket name,
       if String.eqb name "clang/linux/descriptors/h2"
       then Err (ErrExternal "storage: i/o timeout")
       else readObject demoClient bucket name |}.

Definition demoUnmarshal (buf : string) : result CmdDescriptor :=
  if String.eqb buf "d1" then
    Ok {| cd_Selector := Some (sel "clang" "14" "x86_64-linux" "aa");
          cd_Setup := Some {| setup_PathType := CmdDescriptor_POSIX |} |}
  else if String.eqb buf "d2" then
    Ok {| cd_Selector := Some (sel "gcc" "9" "x86_64-linux" "bb");
          cd_Setup := Some {| setup_PathType := CmdDescriptor_POSIX |} |}
  else if String.eqb buf "d3" then
    Ok {| cd_Selector := Some (sel "clang" "15" "x86_64-linux" "cc");
          cd_Setup := Some {| setup_PathType := CmdDescriptor_POSIX |} |}
  else Err (ErrExternal "proto: cannot parse invalid wire-format data").

Definition demoRuntime (addr : string) : RuntimeConfig :=
  runtimeOf "clang" addr [] [] [sel "gcc" "" "" ""].

Definition demoPlatform : RemoteexecPlatform :=
  {| rbe_Properties := [prop "OS" "Linux"]; rbe_HasNsjail := false |}.

Definition demoLoader : ConfigLoader :=
  {| cl_StorageClient := demoClient; cl_EnableParallel := true |}.

(** Goroutines finish in index order, or the last one first. *)
Definition inOrder (_ : string) : list nat := [0; 1; 2].
Definition lastFirst : list nat := [2; 0; 1].

Definition rangeSorted (m : gmap string string) : list (string * string) :=
  map_to_list m.

Definition demoSource (seqs : gmap string string) (addr : string) : fakeConfigMap :=
  {| fake_Seqs := Ok seqs;
     fake_Bucket := Ok "bkt";
     fake_RuntimeConfigs := Ok {[ "clang" := demoRuntime addr ]} |}.

Definition demoReconciler (seqs : gmap string string) (addr : string)
    (store : ConfigStore) : ConfigMapLoader fakeConfigMap :=
  {| cml_ConfigMap := demoSource seqs addr;
     cml_ConfigLoader := demoLoader;
     cml_ConfigStore := store |}.

Definition emptyStore : ConfigStore := {| lastConfigs := ∅ |}.

(** A source whose metadata map is empty. *)
Definition orphanSource (seqs : gmap string string) : fakeConfigMap :=
  {| fake_Seqs := Ok seqs;
     fake_Bucket := Ok "bkt";
     fake_RuntimeConfigs := Ok ∅ |}.

Definition orphanReconciler (seqs : gmap string string) (store : ConfigStore)
  : ConfigMapLoader fakeConfigMap :=
  {| cml_ConfigMap := orphanSource seqs;
     cml_ConfigLoader := demoLoader;
     cml_ConfigStore := store |}.

(** A config map listing clang and gcc over the demo bucket, which holds
    clang/seq and no gcc/seq; and a store that still has gcc. *)
Definition gccRuntime : RuntimeConfig := runtimeOf "gcc" "addr" [] [] [].

Definition demoBucket : ConfigMapBucket :=
  {| URI := "gs://bkt/";
     cfgMap := Ok {| cm_Runtimes := [demoRuntime "addr"; gccRuntime] |};
     StorageClient := demoClient;
     RemoteexecAddr := "" |}.

Definition gccStore : ConfigStore :=
  {| lastConfigs := {[ "gcc" := {| cs_seq := "3"; cs_configs := [] |} ]} |}.

(** A store that holds clang at an older token. *)
Definition staleStore : ConfigStore :=
  {| lastConfigs := {[ "clang" := {| cs_seq := "3"; cs_configs := [] |} ]} |}.

Definition h2Object : ObjectAttrs :=
  {| attrs_Name := "clang/linux/descriptors/h2"; attrs_Updated := 20 |}.

(** The platform [ConfigLoader.Load] hands to every record of a
    runtime. *)
Definition platformOf (rc : RuntimeConfig) : RemoteexecPlatform :=
  {| rbe_Properties :=
       (λ p, {| prop_Name := prop_Name p; prop_Value := prop_Value p |})
         <$> (match rc_Platform rc with
              | Some p => plat_Properties p
              | None => []
              end);
     rbe_HasNsjail :=
       match rc_PlatformRuntimeConfig rc with
       | Some prc => prc_HasNsjail prc
       | None => false
       end |}.

(** The record without descriptor that [ConfigLoader.Load] appends for a
    runtime with a [PlatformRuntimeConfig]. *)
Definition platformConfigOf (rc : RuntimeConfig) (prc : PlatformRuntimeConfig)
  : Config :=
  {| cfg_Target := None;
     cfg_BuildInfo := None;
     cfg_CmdDescriptor := None;
     cfg_RemoteexecPlatform := Some (platformOf rc);
     cfg_Dimensions := prc_Dimensions prc;
     cfg_Acl := rc_Acl rc |}.

(** A source whose bucket cannot be resolved. *)
Definition bucketlessSource (seqs : gmap string string) : fakeConfigMap :=
  {| fake_Seqs := Ok seqs;
     fake_Bucket := Err (ErrExternal "not gs: URI");
     fake_RuntimeConfigs := Ok {[ "clang" := demoRuntime "addr" ]} |}.

(** The entry of [name] after a reload loop that ran to its end: [oseq]
    is the token the loop visits the name with, if it does, and [old] the
    entry before the loop. *)
Definition entryAfter (Unmarshal : string → result CmdDescriptor)
    (completion : string → list nat) (loader : ConfigLoader) (bucket : string)
    (runtimeConfigs : gmap string RuntimeConfig)
    (oseq : option string) (old : option configs) (name : string) : option configs :=
  match oseq with
  | None => old
  | Some seq =>
      match runtimeConfigs !! name with
      | None => old
      | Some runtime =>
          if String.eqb (rc_ServiceAddr runtime) "" then old
          else
            match ConfigLoader_Load Unmarshal loader ("gs://" +:+ bucket +:+ "/" +:+ name)
                                    runtime
                                    (completion ("gs://" +:+ bucket +:+ "/" +:+ name)) with
            | Ok confs => Some {| cs_seq := seq; cs_configs := confs |}
            | Err _ => old
            end
      end
  end.

(** ** The notification of the bucket and the push watcher *)

(** [storage.Notification], as far as the code reads it. *)
Record Notification := {
  n_ID : string;
  n_TopicProjectID : string;
  n_TopicID : string;
}.

(** The two ways [cloudStorageNotification] fails: the error of
    [bkt.Notifications], or "notification:%s not found in %v" with the
    bucket and the map it looked through. *)
Inductive notificationError :=
  | NotificationsFailed (e : error)
  | NotificationNotFound (bucket : string) (nm : gmap string Notification).

(** The [for] loop over the notifications: the first one whose topic is
    named like the bucket. *)
Fixpoint firstTopic (bucket : string) (ns : list (string * Notification))
  : option Notification :=
  match ns with
  | [] => None
  | (_, n) :: rest =>
      if String.eqb (n_TopicID n) bucket then Some n else firstTopic bucket rest
  end.

(** [cloudStorageNotification]; [notifications] is what
    [bkt.Notifications(ctx)] returns and [order] the order in which
    [range] visits that map. *)
Definition cloudStorageNotification
    (notifications : result (gmap string Notification))
    (order : gmap string Notification → list (string * Notification))
    (bucket : string) : notificationError + Notification :=
  match notifications with
  | Err e => inl (NotificationsFailed e)
  | Ok nm =>
      match firstTopic bucket (order nm) with
      | Some n => inr n
      | None => inl (NotificationNotFound bucket nm)
      end
  end.

(** [pubsub.Message], as far as the watcher reads it. *)
Record Message := {
  msg_ID : string;
  msg_Attributes : gmap string string;
}.

(** [storage.ObjectFinalizeEvent], a constant of the storage library. *)
Definition ObjectFinalizeEvent : string := "OBJECT_FINALIZE".

(** The test [Next] applies to a message after acknowledging it. *)
Definition seqFinalized (msg : Message) : bool :=
  String.eqb (default "" (msg_Attributes msg !! "eventType")) ObjectFinalizeEvent
  && String.eqb (Base (default "" (msg_Attributes msg !! "objectId"))) "seq".

(** What a [select] of [Next] takes: a message from the channel, the
    closed channel, the cancelled context, or nothing (a blocking select
    keeps waiting, the draining one takes its [default]). *)
Inductive selected :=
  | Received (msg : Message)
  | ChannelClosed
  | ContextDone (err : error)
  | NothingReady.

(** How [Next] ends: nil, [ErrWatcherClosed], the error of the context,
    the nil message of a closed channel dereferenced while draining, or
    still waiting when the selections run out. *)
Inductive nextResult :=
  | NextNil
  | NextWatcherClosed
  | NextContext (err : error)
  | NextNilMessage
  | NextWaiting.

(** The inner loop of [Next]: take what is ready, acknowledge it, and
    return at the first [default]. The inner select has no case for the
    context: a cancelled context is left for the next blocking select. *)
Fixpoint drain (sels : list selected) (acked : list Message)
  : nextResult * list Message * list selected :=
  match sels with
  | [] => (NextWaiting, acked, [])
  | Received msg :: rest => drain rest (acked ++ [msg])
  | ChannelClosed :: rest => (NextNilMessage, acked, rest)
  | ContextDone _ :: _ => (NextNil, acked, sels)
  | NothingReady :: rest => (NextNil, acked, rest)
  end.

(** [configMapBucketWatcher.Next] over the selections [sels]: the result,
    the messages acknowledged in order, and the selections left. *)
Fixpoint Next (sels : list selected) (acked : list Message)
  : nextResult * list Message * list selected :=
  match sels with
  | [] => (NextWaiting, acked, [])
  | Received msg :: rest =>
      if seqFinalized msg then drain rest (acked ++ [msg])
      else Next rest (acked ++ [msg])
  | ChannelClosed :: rest => (NextWatcherClosed, acked, rest)
  | ContextDone err :: rest => (NextContext err, acked, rest)
  | NothingReady :: rest => Next rest acked
  end.

(** The messages among the selections. *)
Fixpoint receivedOf (sels : list selected) : list Message :=
  match sels with
  | [] => []
  | Received msg :: rest => msg :: receivedOf rest
  | _ :: rest => receivedOf rest
  end.

(** ** readConfigResp of the proxy (package main)

    The proxy reads a [ConfigResp] from a file and points every config at
    the remoteexec address. [BuildInfo] is kept as a message of its own
    here, since the function tells a nil [BuildInfo] from an empty one. *)

Record proxyConfig := {
  pc_Target : option string;              (* Target, with its Addr *)
  pc_BuildInfo : option (option Z);       (* BuildInfo, with its Timestamp *)
  pc_CmdDescriptor : option CmdDescriptor;
  pc_RemoteexecPlatform : option RemoteexecPlatform;
  pc_Dimensions : list string;
  pc_Acl : option ACL;
}.

Record proxyConfigResp := {
  pr_VersionId : string;
  pr_Configs : list proxyConfig;
}.

(** The body of the loop "fix target address etc.". *)
Definition fixTarget (remoteexecAddr : string) (c : proxyConfig) : proxyConfig :=
  {| pc_Target := Some remoteexecAddr;
     pc_BuildInfo := match pc_BuildInfo c with
                     | None => Some None
                     | Some bi => Some bi
                     end;
     pc_CmdDescriptor := pc_CmdDescriptor c;
     pc_RemoteexecPlatform := pc_RemoteexecPlatform c;
     pc_Dimensions := pc_Dimensions c;
     pc_Acl := pc_Acl c |}.

(** [readFile] is the outcome of [ioutil.ReadFile(fname)], [unmarshal]
    is [prototext.Unmarshal] into a fresh [ConfigResp], [remoteexecAddr]
    the value of the flag. *)
Definition readConfigResp (readFile : result string)
    (unmarshal : string → result proxyConfigResp) (remoteexecAddr : string)
  : result proxyConfigResp :=
  match readFile with
  | Err e => Err e
  | Ok b =>
      match unmarshal b with
      | Err e => Err e
      | Ok resp =>
          Ok {| pr_VersionId := pr_VersionId resp;
                pr_Configs := fixTarget remoteexecAddr <$> pr_Configs resp |}
      end
  end.

(** A deny-list entry with no field set, and a runtime with another
    deny-list of commands. *)
Definition blankSelector (s : Selector) : bool :=
  String.eqb (sel_Name s) "" && String.eqb (sel_Version s) ""
  && String.eqb (sel_Target s) "" && String.eqb (sel_BinaryHash s) "".

Definition withDisallowedCommands (rc : RuntimeConfig) (cmds : list Selector)
  : RuntimeConfig :=
  {| rc_Name := rc_Name rc;
     rc_ServiceAddr := rc_ServiceAddr rc;
     rc_Platform := rc_Platform rc;
     rc_PlatformRuntimeConfig := rc_PlatformRuntimeConfig rc;
     rc_AllowedPrebuilts := rc_AllowedPrebuilts rc;
     rc_DisallowedPrebuilts := rc_DisallowedPrebuilts rc;
     rc_DisallowedCommands := cmds;
     rc_Acl := rc_Acl rc |}.

(** The demo bucket with another content of the README, an object the
    listing filter drops. *)
Definition rewrittenClient : Client :=
  {| hasBucket := hasBucket demoClient;
     hasObject := hasObject demoClient;
     listObjects := listObjects demoClient;
     readObject := λ bucket name,
       if String.eqb name "clang/linux/README" then Ok "changed"
       else readObject demoClient bucket name |}.

(** * Properties *)

(** ** The string helpers on sample paths *)

Example Base_object : Base "rt/pre/descriptors/abc" = "abc".
Proof. reflexivity. Qed.
Example Base_slashes : Base "///" = "/".
Proof. reflexivity. Qed.
Example Dir_object : Dir "rt/pre/descriptors/abc" = "rt/pre/descriptors".
Proof. reflexivity. Qed.
Example Dir_plain : Dir "abc" = ".".
Proof. reflexivity. Qed.
Example Clean_mixed : Clean "a//b/./c/../d/" = "a/b/d".
Proof. reflexivity. Qed.
Example Clean_rooted : Clean "/../a/../../b" = "/b".
Proof. reflexivity. Qed.
Example Clean_dotdot : Clean "../../a/../.." = "../../..".
Proof. reflexivity. Qed.
Example Join_seq : Join "clang" "seq" = "clang/seq".
Proof. reflexivity. Qed.
Example Index_found : Index "rt/pre/descriptors/abc" "/descriptors" = 6%Z.
Proof. reflexivity. Qed.
Example Index_absent : Index "rt/pre" "/descriptors" = (-1)%Z.
Proof. reflexivity. Qed.
Example splitGCSPath_runtime :
  splitGCSPath "gs://bkt/clang" = Ok ("bkt", "clang").
Proof. reflexivity. Qed.

(** ** mergePlatformProperties *)

Lemma Property_eta (p : Property) :
  {| prop_Name := prop_Name p; prop_Value := prop_Value p |} = p.
Proof. by destruct p. Qed.

Lemma merge_fold (m : gset string) (src acc : list Property) :
  fold_left
    (λ (props : list Property) (p : Property),
       if decide (prop_Name p ∈ m) then props
       else props ++ [{| prop_Name := prop_Name p; prop_Value := prop_Value p |}])
    src acc
  = acc ++ filter (λ p, prop_Name p ∉ m) src.
Proof.
  revert acc. induction src as [|p src IH]; intros acc; simpl.
  - by rewrite app_nil_r.
  - rewrite IH, Property_eta. rewrite filter_cons.
    destruct (decide (prop_Name p ∈ m)) as [Hin|Hin].
    + by rewrite decide_False by (intros Hn; by apply Hn).
    + rewrite decide_True by done. by rewrite <- app_assoc.
Qed.

(** C9. [mergePlatformProperties target source] keeps the target's
    properties as they are, in place, and appends exactly the source
    properties whose name does not occur in the target, in the source's
    order; a nil source changes nothing; and [{OS,Linux}] overlaid with
    [{OS,Windows},{ABI,x64}] gives [{OS,Linux},{ABI,x64}]. *)
Theorem mergePlatformProperties_target_wins :
  (∀ (target : RemoteexecPlatform) (source : Platform),
     rbe_Properties (mergePlatformProperties target (Some source))
     = rbe_Properties target
       ++ filter (λ p, prop_Name p ∉ (prop_Name <$> rbe_Properties target))
                 (plat_Properties source))
  ∧ (∀ target : RemoteexecPlatform, mergePlatformProperties target None = target)
  ∧ rbe_Properties
      (mergePlatformProperties
         {| rbe_Properties := [prop "OS" "Linux"]; rbe_HasNsjail := false |}
         (Some {| plat_Properties := [prop "OS" "Windows"; prop "ABI" "x64"] |}))
    = [prop "OS" "Linux"; prop "ABI" "x64"].
Proof.
  split; [|split].
  - intros target source. unfold mergePlatformProperties; simpl.
    rewrite merge_fold. f_equal.
    apply list_filter_iff. intros p. by rewrite elem_of_list_to_set.
  - done.
  - by vm_compute.
Qed.

(** ** checkSelector *)

Lemma nonempty_true (s : string) : nonempty s = true ↔ s ≠ "".
Proof.
  unfold nonempty. rewrite negb_true_iff. apply String.eqb_neq.
Qed.

Lemma field_test (a b : string) :
  nonempty a && String.eqb a b = true ↔ a ≠ "" ∧ a = b.
Proof.
  rewrite andb_true_iff, nonempty_true, String.eqb_eq. done.
Qed.

Lemma selectorHit_iff (s sel : Selector) :
  is_Some (selectorHit s sel) ↔ fieldHit s sel.
Proof.
  unfold selectorHit, fieldHit.
  pose proof (field_test (sel_Name s) (sel_Name sel)) as H1.
  pose proof (field_test (sel_Version s) (sel_Version sel)) as H2.
  pose proof (field_test (sel_Target s) (sel_Target sel)) as H3.
  pose proof (field_test (sel_BinaryHash s) (sel_BinaryHash sel)) as H4.
  destruct (nonempty (sel_Name s) && String.eqb (sel_Name s) (sel_Name sel));
    [split; [intros _; left; by apply H1 | by eauto]|].
  destruct (nonempty (sel_Version s) && String.eqb (sel_Version s) (sel_Version sel));
    [split; [intros _; right; left; by apply H2 | by eauto]|].
  destruct (nonempty (sel_Target s) && String.eqb (sel_Target s) (sel_Target sel));
    [split; [intros _; right; right; left; by apply H3 | by eauto]|].
  destruct (nonempty (sel_BinaryHash s)
            && String.eqb (sel_BinaryHash s) (sel_BinaryHash sel));
    [split; [intros _; right; right; right; by apply H4 | by eauto]|].
  split.
  - intros [? ?]; discriminate.
  - intros [Hf|[Hf|[Hf|Hf]]]; [apply H1 in Hf|apply H2 in Hf|apply H3 in Hf|apply H4 in Hf];
      discriminate.
Qed.

Lemma checkSelectorLoop_iff (ss : list Selector) (sel : Selector) :
  is_Some (checkSelectorLoop ss sel) ↔ ∃ s, s ∈ ss ∧ fieldHit s sel.
Proof.
  induction ss as [|s ss IH]; simpl.
  - split; [intros [? ?]; discriminate|]. intros (s & Hs & _). by apply elem_of_nil in Hs.
  - destruct (selectorHit s sel) as [e|] eqn:Hhit.
    + split; [|by eauto]. intros _. exists s. split; [by left|].
      apply selectorHit_iff. rewrite Hhit. by eauto.
    + rewrite IH. split.
      * intros (s' & Hs' & Hf). exists s'. split; [by right|done].
      * intros (s' & Hs' & Hf). apply elem_of_cons in Hs' as [->|Hs'].
        -- apply selectorHit_iff in Hf. rewrite Hhit in Hf. by destruct Hf.
        -- by eauto.
Qed.

(** C8, as the code has it. A descriptor is denied exactly when it has no
    selector, or some deny-list entry has a non-empty field (name,
    version, target or binary hash) equal to the selector's field of the
    same name; the other fields of the entry are not compared. *)
Theorem checkSelector_denied_iff (rc : RuntimeConfig) (sel : option Selector) :
  is_Some (checkSelector rc sel) ↔
  sel = None ∨
  ∃ sel' s, sel = Some sel' ∧ s ∈ rc_DisallowedCommands rc ∧ fieldHit s sel'.
Proof.
  destruct sel as [sel'|]; simpl.
  - rewrite checkSelectorLoop_iff. split.
    + intros (s & Hs & Hf). right. by exists sel', s.
    + intros [?|(sel'' & s & Heq & Hs & Hf)]; [done|].
      inversion Heq; subst. by eauto.
  - split; [by left|by eauto].
Qed.

(** C8 as stated fails in both directions: an entry that only sets the
    name denies a selector that differs from it in every other field, and
    an entry equal to the selector on all four fields does not deny it
    when those fields are empty. *)
Lemma checkSelector_not_tuple_equality :
  (is_Some (checkSelector (runtimeOf "rt" "addr" [] [] [sel "gcc" "" "" ""])
                          (Some (sel "gcc" "9" "x86_64" "abc")))
   ∧ ¬ ∃ s, s ∈ rc_DisallowedCommands (runtimeOf "rt" "addr" [] [] [sel "gcc" "" "" ""])
            ∧ spec_selectorEqual s (sel "gcc" "9" "x86_64" "abc"))
  ∧ (checkSelector (runtimeOf "rt" "addr" [] [] [sel "" "" "" ""])
                   (Some (sel "" "" "" "")) = None
     ∧ ∃ s, s ∈ rc_DisallowedCommands (runtimeOf "rt" "addr" [] [] [sel "" "" "" ""])
            ∧ spec_selectorEqual s (sel "" "" "" "")).
Proof.
  split; split.
  - by eexists.
  - intros (s & Hs & Heq). simpl in Hs. apply list_elem_of_singleton in Hs as ->.
    destruct Heq as (_ & Hv & _). discriminate.
  - reflexivity.
  - exists (sel "" "" "" ""). split; [by left|done].
Qed.

(** ** The worker pool *)

Section PoolProps.

Variable Unmarshal : string → result CmdDescriptor.
Variables (client : Client) (bucket : string) (rc : RuntimeConfig).
Variables (platform : RemoteexecPlatform) (attrsList : list ObjectAttrs).

Let fetch := fetchOne Unmarshal client bucket rc platform.
Let worker := runWorker Unmarshal client bucket rc platform attrsList.

(** A goroutine changes no slot but its own, and only by storing. *)
Lemma runWorker_slots (st : pool) (i j : nat) :
  length (confList st) = length attrsList →
  length (confList (worker st i)) = length attrsList ∧
  confList (worker st i) !! j =
    if decide (i = j) then
      match attrsList !! i ≫= (storedOf ∘ fetch) with
      | Some conf => Some (Some conf)
      | None => confList st !! j
      end
    else confList st !! j.
Proof.
  intros Hlen. unfold worker, runWorker.
  destruct (attrsList !! i) as [attrs|] eqn:Hi; simpl.
  - fold (fetch attrs). destruct (fetch attrs) as [e| |conf]; simpl.
    + split; [done|]. by destruct (decide (i = j)).
    + split; [done|]. by destruct (decide (i = j)).
    + rewrite length_insert. split; [done|].
      destruct (decide (i = j)) as [->|Hne].
      * apply list_lookup_insert_eq. rewrite Hlen. by eapply lookup_lt_Some.
      * by apply list_lookup_insert_ne.
  - split; [done|]. by destruct (decide (i = j)).
Qed.

Lemma fold_worker_slots (sched : list nat) (st : pool) (j : nat) :
  length (confList st) = length attrsList →
  length (confList (fold_left worker sched st)) = length attrsList ∧
  confList (fold_left worker sched st) !! j =
    match attrsList !! j ≫= (storedOf ∘ fetch) with
    | Some conf => if decide (j ∈ sched) then Some (Some conf) else confList st !! j
    | None => confList st !! j
    end.
Proof.
  revert st. induction sched as [|i sched IH]; intros st Hlen.
  - split; [done|]. cbn [fold_left]. destruct (attrsList !! j ≫= _); [|done].
    destruct (decide (j ∈ [])) as [Hin|Hin]; [|done]. by apply elem_of_nil in Hin.
  - cbn [fold_left].
    destruct (runWorker_slots st i j Hlen) as [Hlen' Hj].
    destruct (IH (worker st i) Hlen') as [Hlen'' Hj'].
    split; [done|]. rewrite Hj'. clear Hj'.
    destruct (attrsList !! j ≫= (storedOf ∘ fetch)) as [conf|] eqn:Hst.
    + destruct (decide (j ∈ sched)) as [Hin|Hnin].
      * destruct (decide (j ∈ i :: sched)) as [Hc|Hc]; [done|].
        exfalso. apply Hc, elem_of_cons. by right.
      * rewrite Hj. destruct (decide (i = j)) as [->|Hne].
        -- rewrite Hst. destruct (decide (j ∈ j :: sched)) as [Hc|Hc]; [done|].
           exfalso. apply Hc, elem_of_cons. by left.
        -- destruct (decide (j ∈ i :: sched)) as [Hc|Hc]; [|done].
           apply elem_of_cons in Hc as [?|?]; by subst.
    + rewrite Hj. destruct (decide (i = j)) as [->|Hne]; [|done].
      by rewrite Hst.
Qed.

(** The slots once every goroutine has finished: a function of the
    listing alone. *)
Lemma runPool_confList (sched : list nat) :
  (∀ i, i < length attrsList → i ∈ sched) →
  confList (runPool Unmarshal client bucket rc platform attrsList sched)
  = (storedOf ∘ fetch) <$> attrsList.
Proof.
  intros Hall. unfold runPool. fold worker.
  set (st0 := {| confList := replicate (length attrsList) None; egErr := None |}).
  assert (Hlen0 : length (confList st0) = length attrsList).
  { simpl. by rewrite length_replicate. }
  apply list_eq. intros j.
  destruct (fold_worker_slots sched st0 j Hlen0) as [_ ->].
  rewrite list_lookup_fmap.
  destruct (attrsList !! j) as [attrs|] eqn:Hj; simpl.
  - assert (Hlt : j < length attrsList) by by eapply lookup_lt_Some.
    destruct (storedOf (fetch attrs)) as [conf|] eqn:Hs.
    + destruct (decide (j ∈ sched)) as [Hc|Hc]; [done|]. exfalso. by apply Hc, Hall.
    + by apply lookup_replicate_2.
  - apply lookup_ge_None. rewrite length_replicate. by apply lookup_ge_None.
Qed.

(** The error the errgroup keeps is the one of the first goroutine, in
    completion order, that failed. *)
Lemma fold_worker_err (sched : list nat) (st : pool) :
  egErr (fold_left worker sched st) =
    match egErr st with
    | Some e => Some e
    | None => firstFailure ((λ i, attrsList !! i ≫= (failedOf ∘ fetch)) <$> sched)
    end.
Proof.
  revert st. induction sched as [|i sched IH]; intros st; simpl.
  - by destruct (egErr st).
  - rewrite IH. unfold worker, runWorker.
    destruct (attrsList !! i) as [attrs|] eqn:Hi; simpl.
    + fold (fetch attrs). destruct (fetch attrs) as [e| |conf] eqn:Hf; simpl;
        by destruct (egErr st).
    + by destruct (egErr st).
Qed.

Lemma runPool_egErr (sched : list nat) :
  egErr (runPool Unmarshal client bucket rc platform attrsList sched)
  = firstFailure ((λ i, attrsList !! i ≫= (failedOf ∘ fetch)) <$> sched).
Proof. unfold runPool. fold worker. by rewrite fold_worker_err. Qed.

End PoolProps.

(** ** loadConfigs *)

Lemma compact_fmap {A : Type} (f : A → option Config) (l : list A) :
  compact (f <$> l) = omap f l.
Proof.
  induction l as [|a l IH]; [done|].
  rewrite fmap_cons. cbn [compact omap list_omap]. rewrite IH.
  by destruct (f a).
Qed.

Lemma firstFailure_None (errs : list (option error)) :
  firstFailure errs = None ↔ ∀ e, Some e ∉ errs.
Proof.
  induction errs as [|[e|] errs IH]; simpl.
  - split; [|done]. intros _ e. apply not_elem_of_nil.
  - split; [done|]. intros H. exfalso. apply (H e), elem_of_cons. by left.
  - rewrite IH. split.
    + intros H e [?|?]%elem_of_cons; [done|]. by apply (H e).
    + intros H e Hin. apply (H e), elem_of_cons. by right.
Qed.

Lemma firstFailure_Some (errs : list (option error)) (e : error) :
  firstFailure errs = Some e → Some e ∈ errs.
Proof.
  induction errs as [|[e'|] errs IH]; simpl; [done| |].
  - intros [= ->]. apply elem_of_cons. by left.
  - intros H. apply elem_of_cons. right. by apply IH.
Qed.

Lemma admissible_covers (concurrent n : nat) (sched : list nat) (i : nat) :
  admissible concurrent n sched → (i ∈ sched ↔ i < n).
Proof.
  intros [Hperm _]. rewrite Hperm, elem_of_seq. lia.
Qed.


Section FetcherProps.

Variable Unmarshal : string → result CmdDescriptor.
Variable NumCPU : nat.
Variables (client : Client) (uri : string) (rc : RuntimeConfig).
Variable platform : RemoteexecPlatform.

Let attrsList := attrsListOf client uri rc.
Let fetch := fetchOne Unmarshal client (bucketOf uri) rc platform.
Let errsOf (sched : list nat) : list (option error) :=
  (λ i, attrsList !! i ≫= (failedOf ∘ fetch)) <$> sched.

(** [loadConfigs] once the goroutines are summarised: the errors before
    the pool, then the first failure of the pool, then the stored records
    in listing order. *)
Lemma loadConfigs_run (parallel : bool) (sched : list nat) :
  (∀ i, i < length attrsList → i ∈ sched) →
  loadConfigs Unmarshal client uri rc platform parallel sched =
    match splitGCSPath uri with
    | Err e => Err e
    | Ok (bucket, obj) =>
        if negb (hasBucket client bucket) then
          Err (Errorf "could not find storage bucket %s" [ArgS bucket])
        else
          match (listObjects client bucket obj).2 with
          | Some e => Err e
          | None =>
              match firstFailure (errsOf sched) with
              | Some e => Err e
              | None => Ok (omap (storedOf ∘ fetch) attrsList)
              end
          end
    end.
Proof.
  unfold loadConfigs, errsOf, fetch, attrsList, attrsListOf, bucketOf.
  destruct (splitGCSPath uri) as [[bucket obj]|e]; [|done].
  intros Hall. destruct (negb (hasBucket client bucket)); [done|].
  destruct (listObjects client bucket obj) as [listed [e|]]; [done|].
  simpl in *. rewrite runPool_egErr.
  destruct (firstFailure _); [done|].
  rewrite runPool_confList by done. by rewrite compact_fmap.
Qed.

Lemma errsOf_failure_free (sched : list nat) :
  (∀ i, i ∈ sched ↔ i < length attrsList) →
  firstFailure (errsOf sched) = None ↔
  ∀ attrs, attrs ∈ attrsList → failedOf (fetch attrs) = None.
Proof.
  intros Hcov. rewrite firstFailure_None. unfold errsOf. split.
  - intros H attrs [i Hi]%list_elem_of_lookup.
    destruct (failedOf (fetch attrs)) as [e|] eqn:He; [|done].
    exfalso. apply (H e), list_elem_of_fmap. exists i. split.
    + rewrite Hi. simpl. by rewrite He.
    + apply Hcov. by eapply lookup_lt_Some.
  - intros H e (i & Hi & _)%list_elem_of_fmap.
    destruct (attrsList !! i) as [attrs|] eqn:Hl; [|done]. simpl in Hi.
    rewrite H in Hi; [done|]. apply list_elem_of_lookup. by eauto.
Qed.

(** C3. With the listing and the per-object results fixed, the list of
    configs [loadConfigs] returns is the same for every completion order
    of the serial pool (bound 1) and every completion order of the
    parallel pool (bound [NumCPU * 4]); the two runs succeed or fail
    together; and a returned list is the stored records of the surviving
    objects in listing order, whatever the completion order was. *)
Theorem loadConfigs_parallel_same (sched1 sched2 : list nat) :
  admissible (concurrentOf NumCPU false) (length (attrsListOf client uri rc)) sched1 →
  admissible (concurrentOf NumCPU true) (length (attrsListOf client uri rc)) sched2 →
  value_of (loadConfigs Unmarshal client uri rc platform false sched1)
  = value_of (loadConfigs Unmarshal client uri rc platform true sched2)
  ∧ is_ok (loadConfigs Unmarshal client uri rc platform false sched1)
    = is_ok (loadConfigs Unmarshal client uri rc platform true sched2)
  ∧ ∀ confs,
      loadConfigs Unmarshal client uri rc platform true sched2 = Ok confs →
      confs = omap (storedOf ∘ fetchOne Unmarshal client (bucketOf uri) rc platform)
                   (attrsListOf client uri rc).
Proof.
  intros Ha1 Ha2.
  pose proof (λ i, admissible_covers _ _ _ i Ha1) as Hc1.
  pose proof (λ i, admissible_covers _ _ _ i Ha2) as Hc2.
  rewrite !loadConfigs_run by (intros i Hi; by (apply Hc1 || apply Hc2)).
  pose proof (errsOf_failure_free sched1 Hc1) as He1.
  pose proof (errsOf_failure_free sched2 Hc2) as He2.
  destruct (splitGCSPath uri) as [[bucket obj]|e]; [|by repeat split].
  destruct (negb (hasBucket client bucket)); [by repeat split|].
  destruct ((listObjects client bucket obj).2); [by repeat split|].
  destruct (firstFailure (errsOf sched1)) as [e1|] eqn:E1;
    destruct (firstFailure (errsOf sched2)) as [e2|] eqn:E2; simpl.
  - by repeat split.
  - exfalso. assert (Some e1 = None) as [=]. by apply He1, He2.
  - exfalso. assert (Some e2 = None) as [=]. by apply He2, He1.
  - repeat split; [done..|]. by intros confs [= <-].
Qed.

End FetcherProps.

(** ** Per-item validation and retrieval failures *)

Section ValidationProps.

Variable Unmarshal : string → result CmdDescriptor.
Variable NumCPU : nat.
Variables (client : Client) (uri : string) (rc : RuntimeConfig).
Variable platform : RemoteexecPlatform.

Let fetch := fetchOne Unmarshal client (bucketOf uri) rc platform.
Let load (attrs : ObjectAttrs) :=
  loadDescriptor Unmarshal client (bucketOf uri) (attrs_Name attrs).

Lemma loadDescriptor_error_source (bucket name : string) (e : error) :
  loadDescriptor Unmarshal client bucket name = Err e ↔
  (∃ e0, storageReadAll client bucket name = Err e0
         ∧ e = Errorf "load %s: %v" [ArgS name; ArgErr e0])
  ∨ (∃ buf e0, storageReadAll client bucket name = Ok buf
               ∧ Unmarshal buf = Err e0
               ∧ e = Errorf "parse %s: %v" [ArgS name; ArgErr e0]).
Proof.
  unfold loadDescriptor.
  destruct (storageReadAll client bucket name) as [buf|e0].
  - destruct (Unmarshal buf) as [d|e1] eqn:Hu.
    + split; [done|]. intros [(? & ? & _)|(? & ? & [= <-] & ? & _)]; congruence.
    + split.
      * intros [= <-]. right. by exists buf, e1.
      * intros [(? & ? & _)|(? & ? & [= <-] & ? & ->)]; congruence.
  - split.
    + intros [= <-]. left. by exists e0.
    + intros [(? & [= <-] & ->)|(? & ? & ? & _)]; congruence.
Qed.

Lemma fetch_failed (attrs : ObjectAttrs) :
  failedOf (fetch attrs) =
    match load attrs with Err e => Some e | Ok _ => None end.
Proof.
  unfold fetch, fetchOne, load.
  destruct (loadDescriptor _ _ _ _) as [d|e]; [|done].
  destruct (checkSelector _ _); [done|].
  destruct (cd_Setup d) as [setup|]; [|done].
  by destruct (setup_PathType setup).
Qed.

Lemma fetch_stored (attrs : ObjectAttrs) (d : CmdDescriptor) :
  load attrs = Ok d →
  (invalidDescriptor rc d → storedOf (fetch attrs) = None)
  ∧ (¬ invalidDescriptor rc d →
     storedOf (fetch attrs) = Some (configOf rc platform attrs d)).
Proof.
  unfold fetch, fetchOne, load, invalidDescriptor. intros ->.
  destruct (checkSelector rc (cd_Selector d)) as [e|] eqn:Hsel.
  { split; [done|]. intros H. exfalso. apply H. left. by eexists. }
  destruct (cd_Setup d) as [setup|] eqn:Hsetup.
  2:{ split; [done|]. intros H. exfalso. apply H. by right; left. }
  destruct (setup_PathType setup) eqn:Hpt; simpl.
  - split; [done|]. intros H. exfalso. apply H. right; right. by exists setup.
  - split; [|done].
    intros [[? ?]|[?|(s & [= <-] & ?)]]; congruence.
  - split; [|done].
    intros [[? ?]|[?|(s & [= <-] & ?)]]; congruence.
Qed.

(** C5. When every surviving object is retrieved and parsed, the batch
    succeeds for every completion order; its result is, in listing order,
    one record per object; the record of a descriptor whose selector is
    denied, or that has no setup, or whose path type is unknown, is left
    out (its slot stays nil) and every other descriptor's record is in. *)
Theorem loadConfigs_invalid_dropped (parallel : bool) (sched : list nat) :
  hasBucket client (bucketOf uri) = true →
  is_ok (splitGCSPath uri) = true →
  (∀ bucket obj, splitGCSPath uri = Ok (bucket, obj) →
                 (listObjects client bucket obj).2 = None) →
  admissible (concurrentOf NumCPU parallel) (length (attrsListOf client uri rc)) sched →
  (∀ attrs, attrs ∈ attrsListOf client uri rc →
            is_ok (loadDescriptor Unmarshal client (bucketOf uri) (attrs_Name attrs)) = true) →
  loadConfigs Unmarshal client uri rc platform parallel sched
  = Ok (omap (storedOf ∘ fetchOne Unmarshal client (bucketOf uri) rc platform)
             (attrsListOf client uri rc))
  ∧ ∀ attrs d,
      attrs ∈ attrsListOf client uri rc →
      loadDescriptor Unmarshal client (bucketOf uri) (attrs_Name attrs) = Ok d →
      (invalidDescriptor rc d →
       storedOf (fetchOne Unmarshal client (bucketOf uri) rc platform attrs) = None)
      ∧ (¬ invalidDescriptor rc d →
         storedOf (fetchOne Unmarshal client (bucketOf uri) rc platform attrs)
         = Some (configOf rc platform attrs d)).
Proof.
  intros Hbkt Huri Hlist Hadm Hload.
  pose proof (λ i, admissible_covers _ _ _ i Hadm) as Hcov.
  split; [|intros attrs d _ Hd; by apply fetch_stored].
  rewrite loadConfigs_run by (intros i Hi; by apply Hcov).
  pose proof (errsOf_failure_free Unmarshal client uri rc platform sched Hcov) as Hfree.
  destruct (splitGCSPath uri) as [[bucket obj]|e] eqn:Hs; [|done].
  assert (Hbo : bucketOf uri = bucket) by (unfold bucketOf; by rewrite Hs).
  rewrite <- Hbo at 1. rewrite Hbkt. simpl. rewrite (Hlist bucket obj eq_refl).
  destruct (firstFailure _) as [e|] eqn:Hff; [|done].
  exfalso. assert (Some e = None) as [=]. apply Hfree.
  intros attrs Hin. specialize (Hload attrs Hin).
  pose proof (fetch_failed attrs) as Hf. unfold fetch, load in Hf.
  rewrite Hf. by destruct (loadDescriptor _ _ _ _).
Qed.

(** C6. If the retrieval or the parse of one surviving object fails, the
    call returns an error and no list, for every completion order; when
    the listing itself went through, the error returned is the
    [loadDescriptor] error of a surviving object. *)
Theorem loadConfigs_fetch_error_fatal (parallel : bool) (sched : list nat)
    (attrs : ObjectAttrs) (e : error) :
  admissible (concurrentOf NumCPU parallel) (length (attrsListOf client uri rc)) sched →
  attrs ∈ attrsListOf client uri rc →
  loadDescriptor Unmarshal client (bucketOf uri) (attrs_Name attrs) = Err e →
  is_ok (loadConfigs Unmarshal client uri rc platform parallel sched) = false
  ∧ value_of (loadConfigs Unmarshal client uri rc platform parallel sched) = []
  ∧ (hasBucket client (bucketOf uri) = true →
     (∀ bucket obj, splitGCSPath uri = Ok (bucket, obj) →
                    (listObjects client bucket obj).2 = None) →
     ∃ attrs' e',
       attrs' ∈ attrsListOf client uri rc
       ∧ loadDescriptor Unmarshal client (bucketOf uri) (attrs_Name attrs') = Err e'
       ∧ loadConfigs Unmarshal client uri rc platform parallel sched = Err e').
Proof.
  intros Hadm Hin Herr.
  pose proof (λ i, admissible_covers _ _ _ i Hadm) as Hcov.
  rewrite loadConfigs_run by (intros i Hi; by apply Hcov).
  pose proof (errsOf_failure_free Unmarshal client uri rc platform sched Hcov) as Hfree.
  assert (Hsome : ∃ e', firstFailure
            ((λ i, attrsListOf client uri rc !! i
                   ≫= (failedOf ∘ fetchOne Unmarshal client (bucketOf uri) rc platform))
               <$> sched) = Some e').
  { destruct (firstFailure _) as [e'|] eqn:Hff; [by eauto|]. exfalso.
    pose proof (proj1 Hfree eq_refl attrs Hin) as Hnone.
    pose proof (fetch_failed attrs) as Hf. unfold fetch, load in Hf.
    rewrite Hf, Herr in Hnone. discriminate. }
  destruct Hsome as [e' He']. rewrite He'.
  destruct (splitGCSPath uri) as [[bucket obj]|e0] eqn:Hs.
  2:{ unfold attrsListOf in Hin. rewrite Hs in Hin. by apply elem_of_nil in Hin. }
  assert (Hbo : bucketOf uri = bucket) by (unfold bucketOf; by rewrite Hs).
  rewrite !Hbo. clear Hfree.
  destruct (negb (hasBucket client bucket)) eqn:Hb.
  { repeat split; [done..|]. intros Hb'. rewrite Hb' in Hb. discriminate. }
  destruct ((listObjects client bucket obj).2) as [e1|] eqn:Hl.
  { repeat split; [done..|]. intros _ Hl'. rewrite (Hl' _ _ eq_refl) in Hl. discriminate. }
  repeat split; [done..|]. intros _ _.
  apply firstFailure_Some, list_elem_of_fmap in He' as (i & Hi & _).
  destruct (attrsListOf client uri rc !! i) as [attrs'|] eqn:Hlk; [|done].
  exists attrs', e'. split; [apply list_elem_of_lookup; by eauto|]. split; [|done].
  simpl in Hi. symmetry in Hi.
  pose proof (fetch_failed attrs') as Hf. unfold fetch, load in Hf.
  rewrite Hf, Hbo in Hi. clear Hf.
  destruct (loadDescriptor Unmarshal client bucket (attrs_Name attrs')); by simplify_eq.
Qed.

End ValidationProps.

(** ** The listing filter *)

Lemma firstPrefixOf_None (pre : string) (prefixes : list string) :
  firstPrefixOf pre prefixes = None ↔ ∀ p, p ∈ prefixes → HasPrefix pre p = false.
Proof.
  induction prefixes as [|q prefixes IH]; simpl.
  - split; [|done]. intros _ p Hp. by apply elem_of_nil in Hp.
  - destruct (HasPrefix pre q) eqn:Hq.
    + split; [done|]. intros H. rewrite H in Hq; [done|]. apply elem_of_cons. by left.
    + rewrite IH. split.
      * intros H p [->|Hp]%elem_of_cons; [done|]. by apply H.
      * intros H p Hp. apply H, elem_of_cons. by right.
Qed.

Lemma anyPrefixOf_true (pre : string) (prefixes : list string) :
  anyPrefixOf pre prefixes = true ↔ ∃ p, p ∈ prefixes ∧ HasPrefix pre p = true.
Proof.
  induction prefixes as [|q prefixes IH]; simpl.
  - split; [done|]. intros (p & Hp & _). by apply elem_of_nil in Hp.
  - destruct (HasPrefix pre q) eqn:Hq.
    + split; [|done]. intros _. exists q. split; [|done]. apply elem_of_cons. by left.
    + rewrite IH. split.
      * intros (p & Hp & Hpre). exists p. split; [|done]. apply elem_of_cons. by right.
      * intros (p & [->|Hp]%elem_of_cons & Hpre); [congruence|]. by exists p.
Qed.

(** What the listing loop of the code keeps: the name contains
    "/descriptors", the base of its directory is "descriptors", and the
    base of what precedes the first "/descriptors" has no denied prefix
    and, when the allow-list is not empty, an allowed one. The kept
    objects stay in listing order ([attrsListOf] is a filter). *)
Lemma keepObject_iff (rc : RuntimeConfig) (attrs : ObjectAttrs) :
  keepObject rc attrs = true ↔
  ∃ pre, prebuiltNameOf (attrs_Name attrs) = Some pre
         ∧ Base (Dir (attrs_Name attrs)) = "descriptors"
         ∧ (∀ p, p ∈ rc_DisallowedPrebuilts rc → HasPrefix pre p = false)
         ∧ (rc_AllowedPrebuilts rc = []
            ∨ ∃ p, p ∈ rc_AllowedPrebuilts rc ∧ HasPrefix pre p = true).
Proof.
  unfold keepObject, checkPrebuilt, prebuiltNameOf.
  destruct (Index (attrs_Name attrs) "/descriptors" <? 0)%Z.
  { split; [done|]. by intros (pre & ? & _). }
  set (pre := Base (slice_to (attrs_Name attrs) _)).
  destruct (firstPrefixOf pre (rc_DisallowedPrebuilts rc)) as [q|] eqn:Hdeny.
  { split; [done|]. intros (pre' & [= <-] & _ & Hd & _).
    apply firstPrefixOf_None in Hd. congruence. }
  rewrite firstPrefixOf_None in Hdeny.
  destruct (rc_AllowedPrebuilts rc) as [|a allow] eqn:Hallow.
  { rewrite String.eqb_eq. split.
    - intros Hb. exists pre. by eauto.
    - by intros (pre' & _ & Hb & _). }
  rewrite <- Hallow.
  destruct (anyPrefixOf pre (rc_AllowedPrebuilts rc)) eqn:Hany.
  - rewrite String.eqb_eq. apply anyPrefixOf_true in Hany. split.
    + intros Hb. exists pre. by eauto.
    + by intros (pre' & _ & Hb & _).
  - split; [done|]. intros (pre' & [= <-] & _ & _ & [Hnil|Hex]); [congruence|].
    apply anyPrefixOf_true in Hex. congruence.
Qed.

(** On the documented layout <runtime>/<prebuilt>/descriptors/<hash> the
    code and the spec read the same prebuilt name. *)
Example prebuiltName_layout :
  prebuiltNameOf "clang/linux-x64/descriptors/abc" = Some "linux-x64"
  ∧ spec_prebuiltName "clang/linux-x64/descriptors/abc" = "linux-x64".
Proof. by vm_compute. Qed.

(** C4 at a prebuilt item whose name starts with "descriptors": the code
    cuts the object name at its first "/descriptors", takes the runtime
    directory "rt" for the prebuilt name and keeps the object, although
    the directory two levels above the object, "descriptors-v2", is on the
    deny-list. *)
Theorem keepObject_prebuilt_named_descriptors :
  prebuiltNameOf "rt/descriptors-v2/descriptors/abc" = Some "rt"
  ∧ spec_prebuiltName "rt/descriptors-v2/descriptors/abc" = "descriptors-v2"
  ∧ keepObject (runtimeOf "rt" "addr" [] ["descriptors-v2"] [])
               {| attrs_Name := "rt/descriptors-v2/descriptors/abc"; attrs_Updated := 0 |}
    = true
  ∧ spec_keepObject (runtimeOf "rt" "addr" [] ["descriptors-v2"] [])
                    {| attrs_Name := "rt/descriptors-v2/descriptors/abc"; attrs_Updated := 0 |}
    = false.
Proof. by vm_compute. Qed.

(** ** ConfigStore and the diff of sequence tokens *)

Lemma ConfigStore_List_dom (store : ConfigStore) :
  list_to_set (ConfigStore_List store) = dom (lastConfigs store).
Proof.
  apply set_eq. intros name. unfold ConfigStore_List, sortStrings.
  rewrite elem_of_list_to_set, merge_sort_Permutation, elem_of_dom.
  rewrite list_elem_of_fmap. split.
  - intros ([k v] & -> & Hin). apply elem_of_map_to_list in Hin. by eauto.
  - intros [v Hv]. exists (name, v). split; [done|]. by apply elem_of_map_to_list.
Qed.

Lemma diffSeqs_spec (store : ConfigStore) (seqs : gmap string string)
    (deleted0 : gset string) :
  (∀ name,
     (diffSeqs store seqs deleted0).1 !! name =
       seqs !! name ≫= λ seq,
         if decide (ConfigStore_Seq store name = seq) then None else Some seq)
  ∧ (diffSeqs store seqs deleted0).2 = deleted0 ∖ dom seqs.
Proof.
  unfold diffSeqs.
  apply (map_fold_weak_ind
           (λ (r : gmap string string * gset string) (m : gmap string string),
              (∀ name, r.1 !! name =
                 m !! name ≫= λ seq,
                   if decide (ConfigStore_Seq store name = seq) then None else Some seq)
              ∧ r.2 = deleted0 ∖ dom m)).
  - simpl. split; [|by rewrite dom_empty_L, difference_empty_L].
    intros name. by rewrite !lookup_empty.
  - intros i x m r Hi [IH1 IH2]. simpl. split.
    + intros name. destruct (decide (i = name)) as [<-|Hne].
      * rewrite lookup_insert_eq. simpl.
        destruct (decide (ConfigStore_Seq store i = x)).
        -- by rewrite IH1, Hi.
        -- by rewrite lookup_insert_eq.
      * rewrite (lookup_insert_ne m) by done. rewrite <- IH1.
        destruct (decide (ConfigStore_Seq store i = x)); [done|].
        by rewrite lookup_insert_ne.
    + rewrite IH2, dom_insert_L. apply set_eq. intros name.
      rewrite !elem_of_difference, elem_of_union, elem_of_singleton. tauto.
Qed.

Lemma reloadSet_lookup (store : ConfigStore) (seqs : gmap string string)
    (name : string) :
  reloadSet store seqs !! name =
    seqs !! name ≫= λ seq,
      if decide (ConfigStore_Seq store name = seq) then None else Some seq.
Proof. apply diffSeqs_spec. Qed.

Lemma deleteSet_eq (store : ConfigStore) (seqs : gmap string string) :
  deleteSet store seqs = dom (lastConfigs store) ∖ dom seqs.
Proof.
  unfold deleteSet. rewrite (proj2 (diffSeqs_spec _ _ _)).
  by rewrite ConfigStore_List_dom.
Qed.

Lemma foldr_Delete_lookup (store : ConfigStore) (names : list string) (name : string) :
  lastConfigs (foldr (λ name s, ConfigStore_Delete s name) store names) !! name =
    if decide (name ∈ names) then None else lastConfigs store !! name.
Proof.
  induction names as [|x names IH]; simpl.
  - destruct (decide (name ∈ [])) as [Hin|]; [|done]. by apply elem_of_nil in Hin.
  - destruct (decide (x = name)) as [->|Hne].
    + rewrite lookup_delete_eq.
      destruct (decide (name ∈ name :: names)) as [|Hn]; [done|].
      exfalso. apply Hn, elem_of_cons. by left.
    + rewrite lookup_delete_ne by done. rewrite IH.
      destruct (decide (name ∈ names)) as [Hin|Hin],
               (decide (name ∈ x :: names)) as [Hin'|Hin']; try done.
      * exfalso. apply Hin', elem_of_cons. by right.
      * apply elem_of_cons in Hin' as [?|?]; by subst.
Qed.

Lemma deleteAll_lookup (store : ConfigStore) (deleted : gset string) (name : string) :
  lastConfigs (deleteAll store deleted) !! name =
    if decide (name ∈ deleted) then None else lastConfigs store !! name.
Proof.
  unfold deleteAll, set_fold. simpl. rewrite foldr_Delete_lookup.
  destruct (decide (name ∈ elements deleted)) as [Hin|Hin],
           (decide (name ∈ deleted)) as [Hin'|Hin']; try done.
  - by apply elem_of_elements in Hin.
  - by apply elem_of_elements in Hin'.
Qed.

Lemma Seq_lookup (store : ConfigStore) (name : string) :
  ConfigStore_Seq store name = default "" (cs_seq <$> lastConfigs store !! name).
Proof. unfold ConfigStore_Seq. by destruct (lastConfigs store !! name). Qed.

(** ** The reload loop *)

Section ReloadLoopProps.

Variable Unmarshal : string → result CmdDescriptor.
Variable completion : string → list nat.
Variables (loader : ConfigLoader) (bucket : string).
Variable runtimeConfigs : gmap string RuntimeConfig.

Local Abbreviation loop := (reloadLoop Unmarshal completion loader bucket runtimeConfigs).
Local Abbreviation uriOf name := ("gs://" +:+ bucket +:+ "/" +:+ name).

(** An entry of the store after the loop is the one before it, or was
    written for a pair of the loop with that pair's token. *)
Lemma reloadLoop_lookup (l : list (string * string)) (store : ConfigStore)
    (name : string) :
  lastConfigs (loop l store).2 !! name = lastConfigs store !! name
  ∨ ∃ seq confs, (name, seq) ∈ l
                 ∧ lastConfigs (loop l store).2 !! name
                   = Some {| cs_seq := seq; cs_configs := confs |}.
Proof.
  revert store. induction l as [|[n s] l IH]; intros store; simpl; [by left|].
  destruct (runtimeConfigs !! n) as [rt|]; [|by left].
  destruct (String.eqb (rc_ServiceAddr rt) "").
  { destruct (IH store) as [Heq|(seq & confs & Hin & Heq)]; [by left|].
    right. exists seq, confs. split; [|done]. apply elem_of_cons. by right. }
  destruct (ConfigLoader_Load _ _ _ _ _) as [confs|e]; [|by left].
  destruct (IH (ConfigStore_Set store n s confs)) as [Heq|(seq & confs' & Hin & Heq)].
  - rewrite Heq. simpl. destruct (decide (n = name)) as [->|Hne].
    + right. exists s, confs. rewrite lookup_insert_eq. split; [|done].
      apply elem_of_cons. by left.
    + left. by rewrite lookup_insert_ne.
  - right. exists seq, confs'. split; [|done]. apply elem_of_cons. by right.
Qed.

Lemma reloadLoop_untouched (l : list (string * string)) (store : ConfigStore)
    (name : string) :
  name ∉ l.*1 →
  lastConfigs (loop l store).2 !! name = lastConfigs store !! name.
Proof.
  intros Hn. destruct (reloadLoop_lookup l store name) as [?|(seq & ? & Hin & _)]; [done|].
  exfalso. apply Hn, list_elem_of_fmap. by exists (name, seq).
Qed.

(** A runtime without metadata ends the loop with an error. *)
Lemma reloadLoop_missing (l : list (string * string)) (store : ConfigStore)
    (name seq : string) :
  (name, seq) ∈ l → runtimeConfigs !! name = None →
  is_Some (loop l store).1.
Proof.
  revert store. induction l as [|[n s] l IH]; intros store Hin Hnone; simpl.
  { by apply elem_of_nil in Hin. }
  apply elem_of_cons in Hin as [[= <- <-]|Hin].
  { rewrite Hnone. by eexists. }
  destruct (runtimeConfigs !! n) as [rt|]; [|by eexists].
  destruct (String.eqb (rc_ServiceAddr rt) ""); [by apply IH|].
  destruct (ConfigLoader_Load _ _ _ _ _) as [confs|e]; [by apply IH|by eexists].
Qed.

(** A runtime with an empty address keeps its entry, however the loop
    ends. *)
Lemma reloadLoop_skip (l : list (string * string)) (store : ConfigStore)
    (name seq : string) (rt : RuntimeConfig) :
  NoDup l.*1 → (name, seq) ∈ l →
  runtimeConfigs !! name = Some rt → rc_ServiceAddr rt = "" →
  lastConfigs (loop l store).2 !! name = lastConfigs store !! name.
Proof.
  revert store. induction l as [|[n s] l IH]; intros store Hnd Hin Hrt Haddr.
  { by apply elem_of_nil in Hin. }
  rewrite fmap_cons in Hnd. apply NoDup_cons in Hnd as [Hn Hnd].
  apply elem_of_cons in Hin as [[= <- <-]|Hin]; simpl.
  - rewrite Hrt, Haddr. simpl. by apply reloadLoop_untouched.
  - assert (n ≠ name) as Hne.
    { intros ->. apply Hn, list_elem_of_fmap. by exists (name, seq). }
    destruct (runtimeConfigs !! n) as [rt'|]; [|done].
    destruct (String.eqb (rc_ServiceAddr rt') ""); [by apply IH|].
    destruct (ConfigLoader_Load _ _ _ _ _) as [confs|e]; [|done].
    rewrite IH by done. simpl. by rewrite lookup_insert_ne.
Qed.

(** When the loop ends without error, a runtime with an address holds
    the token of its pair. *)
Lemma reloadLoop_done (l : list (string * string)) (store : ConfigStore)
    (name seq : string) (rt : RuntimeConfig) :
  NoDup l.*1 → (name, seq) ∈ l → (loop l store).1 = None →
  runtimeConfigs !! name = Some rt → rc_ServiceAddr rt ≠ "" →
  ∃ confs, lastConfigs (loop l store).2 !! name
           = Some {| cs_seq := seq; cs_configs := confs |}.
Proof.
  revert store. induction l as [|[n s] l IH]; intros store Hnd Hin Hok Hrt Haddr.
  { by apply elem_of_nil in Hin. }
  rewrite fmap_cons in Hnd. apply NoDup_cons in Hnd as [Hn Hnd].
  simpl in Hok |- *.
  apply elem_of_cons in Hin as [[= <- <-]|Hin].
  - rewrite Hrt in Hok |- *. apply String.eqb_neq in Haddr. rewrite Haddr in Hok |- *.
    destruct (ConfigLoader_Load _ _ _ _ _) as [confs|e]; [|done].
    exists confs. rewrite reloadLoop_untouched by done.
    simpl. by rewrite lookup_insert_eq.
  - destruct (runtimeConfigs !! n) as [rt'|]; [|done].
    destruct (String.eqb (rc_ServiceAddr rt') ""); [by apply IH|].
    destruct (ConfigLoader_Load _ _ _ _ _) as [confs|e]; [|done].
    by apply IH.
Qed.

(** The loop ends without error when every runtime has metadata and is
    either skipped or loaded. *)
Lemma reloadLoop_succeeds (l : list (string * string)) (store : ConfigStore) :
  (∀ name seq, (name, seq) ∈ l →
     ∃ rt, runtimeConfigs !! name = Some rt
           ∧ (rc_ServiceAddr rt = ""
              ∨ is_ok (ConfigLoader_Load Unmarshal loader (uriOf name) rt
                                         (completion (uriOf name))) = true)) →
  (loop l store).1 = None.
Proof.
  revert store. induction l as [|[n s] l IH]; intros store Hall; simpl; [done|].
  destruct (Hall n s) as (rt & Hrt & Hcase); [apply elem_of_cons; by left|].
  assert (Hrest : ∀ name seq, (name, seq) ∈ l →
     ∃ rt, runtimeConfigs !! name = Some rt
           ∧ (rc_ServiceAddr rt = ""
              ∨ is_ok (ConfigLoader_Load Unmarshal loader (uriOf name) rt
                                         (completion (uriOf name))) = true)).
  { intros name seq Hin. apply (Hall name seq), elem_of_cons. by right. }
  rewrite Hrt. destruct (String.eqb (rc_ServiceAddr rt) "") eqn:Haddr; [by apply IH|].
  destruct Hcase as [Hempty|Hok].
  { apply String.eqb_neq in Haddr. done. }
  destruct (ConfigLoader_Load _ _ _ _ _) as [confs|e]; [|done].
  by apply IH.
Qed.

End ReloadLoopProps.

(** ** The reconciliation pass *)

Section ReconcilerProps.

Variable Unmarshal : string → result CmdDescriptor.
Variable rangeOrder : gmap string string → list (string * string).
Variable completion : string → list nat.
Variable versionID : string.

(** [range] visits every entry of the map once, in some order. *)
Hypothesis rangeOrder_perm : ∀ m, rangeOrder m ≡ₚ map_to_list m.

Context {T : Type} `{ConfigMap T}.

Local Abbreviation Load' := (Load Unmarshal rangeOrder completion versionID).
Local Abbreviation loop' := (reloadLoop Unmarshal completion).

Lemma rangeOrder_elem (m : gmap string string) (name seq : string) :
  (name, seq) ∈ rangeOrder m ↔ m !! name = Some seq.
Proof. rewrite rangeOrder_perm. apply elem_of_map_to_list. Qed.

Lemma rangeOrder_NoDup (m : gmap string string) : NoDup (rangeOrder m).*1.
Proof. rewrite rangeOrder_perm. apply NoDup_fst_map_to_list. Qed.

Lemma no_update_test (store : ConfigStore) (seqs : gmap string string) :
  bool_decide (size (reloadSet store seqs) = 0 ∧ size (deleteSet store seqs) = 0) = true
  ↔ reloadSet store seqs = ∅ ∧ deleteSet store seqs = ∅.
Proof.
  rewrite bool_decide_eq_true, map_size_empty_iff, size_empty_iff.
  by unfold_leibniz.
Qed.

(** The paths through [Load] once the tokens are fetched. *)
Lemma Load_paths (c : ConfigMapLoader T) (force : bool) (seqs : gmap string string) :
  Seqs (cml_ConfigMap c) = Ok seqs →
  let store := cml_ConfigStore c in
  let store1 := deleteAll store (deleteSet store seqs) in
  (reloadSet store seqs = ∅ ∧ deleteSet store seqs = ∅ ∧ force = false
   ∧ Load' c force = (Err ErrNoUpdate, store))
  ∨ (¬ (reloadSet store seqs = ∅ ∧ deleteSet store seqs = ∅ ∧ force = false)
     ∧ ((∃ e, (Bucket (cml_ConfigMap c) = Err e
               ∨ (is_ok (Bucket (cml_ConfigMap c)) = true
                  ∧ RuntimeConfigs (cml_ConfigMap c) = Err e))
              ∧ Load' c force = (Err e, store1))
        ∨ (∃ bucket rcs,
             Bucket (cml_ConfigMap c) = Ok bucket
             ∧ RuntimeConfigs (cml_ConfigMap c) = Ok rcs
             ∧ let r := loop' (cml_ConfigLoader c) bucket rcs
                              (rangeOrder (reloadSet store seqs)) store1 in
               Load' c force =
                 (match r.1 with
                  | Some e => Err e
                  | None => Ok (ConfigStore_ConfigResp r.2 versionID)
                  end, r.2)))).
Proof.
  intros Hseqs store store1. unfold Load. rewrite Hseqs.
  fold store. fold (reloadSet store seqs). fold (deleteSet store seqs). fold store1.
  destruct (bool_decide _) eqn:Htest.
  - apply no_update_test in Htest as [Hu Hd]. destruct force; simpl.
    + right. split; [by intros (_ & _ & ?)|].
      destruct (Bucket (cml_ConfigMap c)) as [bucket|e]; [|left; by eauto].
      destruct (RuntimeConfigs (cml_ConfigMap c)) as [rcs|e]; [|left; by eauto].
      right. exists bucket, rcs. repeat split; [done..|].
      by destruct (reloadLoop _ _ _ _ _ _ _) as [[e|] s].
    + left. by repeat split.
  - simpl. right. split.
    { intros (Hu & Hd & _). apply not_true_iff_false in Htest. apply Htest.
      by apply no_update_test. }
    destruct (Bucket (cml_ConfigMap c)) as [bucket|e]; [|left; by eauto].
    destruct (RuntimeConfigs (cml_ConfigMap c)) as [rcs|e]; [|left; by eauto].
    right. exists bucket, rcs. repeat split; [done..|].
    by destruct (reloadLoop _ _ _ _ _ _ _) as [[e|] s].
Qed.

(** The entry of a name in the store [Load] leaves behind. *)
Lemma Load_store_entry (c : ConfigMapLoader T) (force : bool)
    (seqs : gmap string string) (name : string) :
  Seqs (cml_ConfigMap c) = Ok seqs →
  let store := cml_ConfigStore c in
  let store' := (Load' c force).2 in
  (seqs !! name = None → lastConfigs store' !! name = None)
  ∧ (is_Some (seqs !! name) →
     lastConfigs store' !! name = lastConfigs store !! name
     ∨ ∃ seq confs, reloadSet store seqs !! name = Some seq
                    ∧ lastConfigs store' !! name
                      = Some {| cs_seq := seq; cs_configs := confs |}).
Proof.
  intros Hseqs store store'.
  assert (Hdel : ∀ D, D = deleteSet store seqs →
            lastConfigs (deleteAll store D) !! name =
              if decide (name ∈ dom seqs) then lastConfigs store !! name else None).
  { intros D ->. rewrite deleteAll_lookup, deleteSet_eq.
    destruct (decide (name ∈ dom seqs)) as [Hin|Hin].
    - destruct (decide (name ∈ dom (lastConfigs store) ∖ dom seqs)) as [Hd|]; [|done].
      apply elem_of_difference in Hd as [_ ?]. done.
    - destruct (decide (name ∈ dom (lastConfigs store) ∖ dom seqs)) as [|Hd]; [done|].
      apply not_elem_of_dom. intros Hs. apply Hd, elem_of_difference. done. }
  assert (Hloop : ∀ loader bucket rcs,
            let r := loop' loader bucket rcs (rangeOrder (reloadSet store seqs))
                           (deleteAll store (deleteSet store seqs)) in
            (seqs !! name = None → lastConfigs r.2 !! name = None)
            ∧ (is_Some (seqs !! name) →
               lastConfigs r.2 !! name = lastConfigs store !! name
               ∨ ∃ seq confs, reloadSet store seqs !! name = Some seq
                              ∧ lastConfigs r.2 !! name
                                = Some {| cs_seq := seq; cs_configs := confs |})).
  { intros loader bucket rcs r. subst r.
    destruct (reloadLoop_lookup Unmarshal completion loader bucket rcs
                (rangeOrder (reloadSet store seqs))
                (deleteAll store (deleteSet store seqs)) name)
      as [Heq|(seq & confs & Hin & Heq)].
    - rewrite Heq, (Hdel _ eq_refl). split.
      + intros Hn. destruct (decide (name ∈ dom seqs)) as [Hin|]; [|done].
        apply elem_of_dom in Hin. rewrite Hn in Hin. by destruct Hin.
      + intros Hs. left. destruct (decide (name ∈ dom seqs)) as [|Hn]; [done|].
        exfalso. by apply Hn, elem_of_dom.
    - apply rangeOrder_elem in Hin. split.
      + intros Hn. rewrite reloadSet_lookup, Hn in Hin. done.
      + intros _. right. by exists seq, confs. }
  subst store'.
  destruct (Load_paths c force seqs Hseqs)
    as [(Hu & Hd & _ & ->)|[_ [(e & _ & ->)|(bucket & rcs & _ & _ & ->)]]]; simpl.
  - fold store in Hd |- *. split.
    + intros Hn. apply not_elem_of_dom. intros Hin.
      assert (name ∈ deleteSet store seqs) as Hin'.
      { rewrite deleteSet_eq. apply elem_of_difference. split; [done|].
        by apply not_elem_of_dom. }
      rewrite Hd in Hin'. by apply not_elem_of_empty in Hin'.
    + by left.
  - fold store. rewrite (Hdel _ eq_refl). split.
    + intros Hn. destruct (decide (name ∈ dom seqs)) as [Hin|]; [|done].
      apply elem_of_dom in Hin. rewrite Hn in Hin. by destruct Hin.
    + intros Hs. left. destruct (decide (name ∈ dom seqs)) as [|Hn]; [done|].
      exfalso. by apply Hn, elem_of_dom.
  - apply Hloop.
Qed.

Lemma Load_withStore (c : ConfigMapLoader T) (force : bool) :
  Load' (withStore c (cml_ConfigStore c)) force = Load' c force.
Proof. done. Qed.

(** The steady state: every fetched token is the one [Seq] returns and
    every stored name is fetched. *)
Lemma Load_synced (c : ConfigMapLoader T) (seqs : gmap string string) :
  Seqs (cml_ConfigMap c) = Ok seqs →
  (∀ name seq, seqs !! name = Some seq → ConfigStore_Seq (cml_ConfigStore c) name = seq) →
  (∀ name, is_Some (lastConfigs (cml_ConfigStore c) !! name) → is_Some (seqs !! name)) →
  Load' c false = (Err ErrNoUpdate, cml_ConfigStore c).
Proof.
  intros Hseqs Hsame Hsub.
  assert (Hu : reloadSet (cml_ConfigStore c) seqs = ∅).
  { apply map_eq. intros name. rewrite reloadSet_lookup, lookup_empty.
    destruct (seqs !! name) as [seq|] eqn:Hs; [|done]. simpl.
    destruct (decide (ConfigStore_Seq (cml_ConfigStore c) name = seq)) as [|Hne]; [done|].
    exfalso. by apply Hne, Hsame. }
  assert (Hd : deleteSet (cml_ConfigStore c) seqs = ∅).
  { rewrite deleteSet_eq. apply set_eq. intros name.
    rewrite elem_of_difference, !elem_of_dom. split.
    - intros [Hin Hn]. exfalso. by apply Hn, Hsub.
    - intros Hin. by apply not_elem_of_empty in Hin. }
  destruct (Load_paths c false seqs Hseqs) as [(_ & _ & _ & ->)|[Hn _]]; [done|].
  exfalso. by apply Hn.
Qed.

(** C1, as the code has it. A fetched name is marked for reload exactly
    when its fetched token differs from the stored one, or when it is not
    stored and its fetched token is not empty: an absent name reads as the
    empty token. The marked token is the fetched one. A stored name is
    gone from the store after [Load] exactly when it is absent from the
    fetched map. *)
Theorem Load_reloads_and_deletes (c : ConfigMapLoader T) (seqs : gmap string string) :
  Seqs (cml_ConfigMap c) = Ok seqs →
  (∀ name,
     is_Some (reloadSet (cml_ConfigStore c) seqs !! name) ↔
     ∃ seq, seqs !! name = Some seq
            ∧ ((∃ cs, lastConfigs (cml_ConfigStore c) !! name = Some cs
                      ∧ cs_seq cs ≠ seq)
               ∨ (lastConfigs (cml_ConfigStore c) !! name = None ∧ seq ≠ "")))
  ∧ (∀ name seq,
       reloadSet (cml_ConfigStore c) seqs !! name = Some seq → seqs !! name = Some seq)
  ∧ (∀ name,
       is_Some (lastConfigs (cml_ConfigStore c) !! name) →
       (lastConfigs (Load' c false).2 !! name = None ↔ seqs !! name = None)).
Proof.
  intros Hseqs. split; [|split].
  - intros name. rewrite reloadSet_lookup. unfold ConfigStore_Seq.
    destruct (seqs !! name) as [seq|]; simpl.
    2:{ split; [by intros [? ?]|]. by intros (? & ? & _). }
    destruct (lastConfigs (cml_ConfigStore c) !! name) as [cs|].
    + destruct (decide (cs_seq cs = seq)) as [Heq|Hne].
      * split; [by intros [? ?]|].
        intros (seq' & [= <-] & [(cs' & [= <-] & Hne)|[? _]]); done.
      * split; [|by eauto]. intros _. exists seq. split; [done|]. left. by exists cs.
    + destruct (decide ("" = seq)) as [Heq|Hne].
      * split; [by intros [? ?]|].
        intros (seq' & [= <-] & [(cs' & ? & _)|[_ Hne]]); done.
      * split; [|by eauto]. intros _. exists seq. split; [done|]. right. split; [done|].
        by intros ->.
  - intros name seq. rewrite reloadSet_lookup.
    destruct (seqs !! name) as [seq'|]; simpl; [|done].
    by destruct (decide _).
  - intros name Hstored.
    destruct (Load_store_entry c false seqs name Hseqs) as [Hgone Hkept].
    split; [|done]. intros Hnone.
    destruct (seqs !! name) as [seq|] eqn:Hs; [|done].
    destruct Hkept as [Heq|(? & ? & _ & Heq)]; [by eauto| |].
    + rewrite Heq in Hnone. rewrite Hnone in Hstored. by destruct Hstored.
    + by rewrite Heq in Hnone.
Qed.

(** C2, as the code has it. When every stored name is fetched with an
    equal token and no fetched name is new, [Load] with [force = false]
    returns [ErrNoUpdate] and the store is the one it was called with.
    After a call that returned a response and skipped none of the marked
    runtimes for an empty address, the next call on the same source
    returns [ErrNoUpdate] and leaves the store as the first call left
    it. *)
Theorem Load_no_update (c : ConfigMapLoader T) (seqs : gmap string string) :
  Seqs (cml_ConfigMap c) = Ok seqs →
  ((∀ name, is_Some (lastConfigs (cml_ConfigStore c) !! name) ↔ is_Some (seqs !! name)) →
   (∀ name cs, lastConfigs (cml_ConfigStore c) !! name = Some cs →
               seqs !! name = Some (cs_seq cs)) →
   Load' c false = (Err ErrNoUpdate, cml_ConfigStore c))
  ∧ (is_ok (Load' c false).1 = true →
     (∀ rcs name rt,
        RuntimeConfigs (cml_ConfigMap c) = Ok rcs →
        is_Some (reloadSet (cml_ConfigStore c) seqs !! name) →
        rcs !! name = Some rt → rc_ServiceAddr rt ≠ "") →
     Load' (withStore c (Load' c false).2) false
     = (Err ErrNoUpdate, (Load' c false).2)).
Proof.
  intros Hseqs. split.
  - intros Hdom Htok. apply (Load_synced c seqs Hseqs).
    + intros name seq Hs. unfold ConfigStore_Seq.
      destruct (proj2 (Hdom name)) as [cs Hcs]; [by eauto|].
      rewrite Hcs. apply Htok in Hcs. congruence.
    + intros name. apply Hdom.
  - intros Hok Haddr.
    pose proof (λ name, Load_store_entry c false seqs name Hseqs) as Hentry.
    destruct (Load_paths c false seqs Hseqs)
      as [(_ & _ & _ & Heq)|[_ [(e & _ & Heq)|(bucket & rcs & _ & Hrcs & Heq)]]];
      try (rewrite Heq in Hok; discriminate).
    simpl in Heq.
    set (store := cml_ConfigStore c) in *.
    set (l := rangeOrder (reloadSet store seqs)) in *.
    set (store1 := deleteAll store (deleteSet store seqs)) in *.
    set (r := reloadLoop Unmarshal completion (cml_ConfigLoader c) bucket rcs l store1) in *.
    assert (Hdone : r.1 = None).
    { rewrite Heq in Hok. simpl in Hok. by destruct (r.1). }
    assert (Hst : (Load' c false).2 = r.2) by by rewrite Heq.
    rewrite Hst in Hentry |- *.
    apply (Load_synced (withStore c r.2) seqs Hseqs); simpl.
    + intros name seq Hs. rewrite Seq_lookup.
      destruct (reloadSet store seqs !! name) as [seq'|] eqn:Hmark.
      * assert (seq' = seq) as ->.
        { rewrite reloadSet_lookup, Hs in Hmark. simpl in Hmark.
          by destruct (decide _); simplify_eq. }
        assert (Hin : (name, seq) ∈ l) by by apply rangeOrder_elem.
        destruct (rcs !! name) as [rt|] eqn:Hrt.
        2:{ destruct (reloadLoop_missing Unmarshal completion (cml_ConfigLoader c)
                        bucket rcs l store1 name seq Hin Hrt) as [e He].
            fold r in He. congruence. }
        destruct (reloadLoop_done Unmarshal completion (cml_ConfigLoader c)
                    bucket rcs l store1 name seq rt) as [confs Hconfs];
          [apply rangeOrder_NoDup|done..| |].
        { apply (Haddr rcs name rt); [done| |done]. rewrite Hmark. by eauto. }
        fold r in Hconfs. by rewrite Hconfs.
      * destruct (proj2 (Hentry name)) as [Heq'|(? & ? & ? & _)]; [by eauto| |congruence].
        rewrite Heq', <- Seq_lookup.
        rewrite reloadSet_lookup, Hs in Hmark. simpl in Hmark.
        by destruct (decide (ConfigStore_Seq store name = seq)).
    + intros name Hsome. destruct (seqs !! name) eqn:Hs; [by eauto|].
      rewrite (proj1 (Hentry name) Hs) in Hsome. by destruct Hsome.
Qed.

(** C7. For a runtime marked for reload: when the metadata map has no
    entry for it, [Load] returns an error, and that error is "runtime
    config ... not found" when it is the only runtime marked; when its
    entry has an empty service address, its store entry after the call is
    the one before the call, and the call still returns a response when
    every other marked runtime is skipped too or loads. *)
Theorem Load_runtime_metadata (c : ConfigMapLoader T) (force : bool)
    (seqs : gmap string string) (bucket : string)
    (rcs : gmap string RuntimeConfig) (name : string) :
  Seqs (cml_ConfigMap c) = Ok seqs →
  Bucket (cml_ConfigMap c) = Ok bucket →
  RuntimeConfigs (cml_ConfigMap c) = Ok rcs →
  is_Some (reloadSet (cml_ConfigStore c) seqs !! name) →
  (rcs !! name = None →
   is_ok (Load' c force).1 = false
   ∧ (∀ seq, reloadSet (cml_ConfigStore c) seqs = {[ name := seq ]} →
             (Load' c force).1
             = Err (Errorf "runtime config %s not found" [ArgS name])))
  ∧ (∀ rt, rcs !! name = Some rt → rc_ServiceAddr rt = "" →
       lastConfigs (Load' c force).2 !! name = lastConfigs (cml_ConfigStore c) !! name
       ∧ ((∀ name' seq',
             reloadSet (cml_ConfigStore c) seqs !! name' = Some seq' →
             ∃ rt', rcs !! name' = Some rt'
                    ∧ (rc_ServiceAddr rt' = ""
                       ∨ is_ok (ConfigLoader_Load Unmarshal (cml_ConfigLoader c)
                                  ("gs://" +:+ bucket +:+ "/" +:+ name') rt'
                                  (completion ("gs://" +:+ bucket +:+ "/" +:+ name')))
                         = true)) →
          is_ok (Load' c force).1 = true)).
Proof.
  intros Hseqs Hbucket Hrcs [seq Hmark].
  set (store := cml_ConfigStore c) in *.
  assert (Hfetched : seqs !! name = Some seq).
  { rewrite reloadSet_lookup in Hmark. destruct (seqs !! name); simpl in *; [|done].
    by destruct (decide _); simplify_eq. }
  destruct (Load_paths c force seqs Hseqs)
    as [(Hu & _)|[_ [(e & [Hb|[_ Hr]] & _)|(bucket' & rcs' & Hb & Hr & Heq)]]].
  { fold store in Hu. rewrite Hu in Hmark. by rewrite lookup_empty in Hmark. }
  { congruence. }
  { congruence. }
  assert (bucket' = bucket) as -> by congruence.
  assert (rcs' = rcs) as -> by congruence.
  simpl in Heq. fold store in Heq.
  set (l := rangeOrder (reloadSet store seqs)) in *.
  set (store1 := deleteAll store (deleteSet store seqs)) in *.
  assert (Hin : (name, seq) ∈ l) by by apply rangeOrder_elem.
  assert (Hkept : lastConfigs store1 !! name = lastConfigs store !! name).
  { unfold store1. rewrite deleteAll_lookup, deleteSet_eq.
    destruct (decide _) as [Hd|]; [|done].
    apply elem_of_difference in Hd as [_ Hd]. exfalso. apply Hd, elem_of_dom. by eauto. }
  rewrite Heq. simpl. split.
  - intros Hnone.
    destruct (reloadLoop_missing Unmarshal completion (cml_ConfigLoader c)
                bucket rcs l store1 name seq Hin Hnone) as [e He].
    rewrite He. split; [done|]. intros seq' Hsingle.
    assert (l = [(name, seq')]) as Hl.
    { apply Permutation_singleton_r. unfold l. rewrite rangeOrder_perm, Hsingle.
      by rewrite map_to_list_singleton. }
    rewrite Hl in He. simpl in He. rewrite Hnone in He. simpl in He.
    by injection He as <-.
  - intros rt Hrt Haddr. split.
    + rewrite (reloadLoop_skip Unmarshal completion (cml_ConfigLoader c) bucket rcs
                 l store1 name seq rt); [done|apply rangeOrder_NoDup|done..].
    + intros Hall.
      rewrite (reloadLoop_succeeds Unmarshal completion (cml_ConfigLoader c)
                 bucket rcs l store1); [done|].
      intros name' seq' Hin'. apply (Hall name' seq'). by apply rangeOrder_elem.
Qed.

End ReconcilerProps.

(** ** ConfigMapBucket.Seqs *)

Section SeqsProps.

Variables (client : Client) (bucket : string).

Local Abbreviation readSeq name := (storageReadAll client bucket (Join name "seq")).

(** The map [Seqs] returns: the tokens read, for the listed names whose
    seq object could be read. *)
Lemma seqsLoop_lookup (runtimes : list RuntimeConfig) (m0 m : gmap string string)
    (name : string) :
  seqsLoop client bucket runtimes m0 = Ok m →
  m !! name =
    if decide (name ∈ rc_Name <$> runtimes) then
      match readSeq name with
      | Ok buf => Some buf
      | Err _ => m0 !! name
      end
    else m0 !! name.
Proof.
  revert m0. induction runtimes as [|r runtimes IH]; intros m0; cbn [seqsLoop].
  - intros [= <-]. rewrite fmap_nil. destruct (decide (name ∈ [])) as [Hin|]; [|done].
    by apply elem_of_nil in Hin.
  - rewrite fmap_cons.
    assert (Hcons : ∀ A (x y : A),
              rc_Name r ≠ name →
              (if decide (name ∈ rc_Name r :: (rc_Name <$> runtimes)) then x else y)
              = (if decide (name ∈ rc_Name <$> runtimes) then x else y)).
    { intros A x y Hne.
      destruct (decide (name ∈ rc_Name <$> runtimes)) as [Hin|Hin],
               (decide (name ∈ rc_Name r :: (rc_Name <$> runtimes))) as [Hin'|Hin'];
        try done.
      - exfalso. apply Hin', elem_of_cons. by right.
      - apply elem_of_cons in Hin' as [?|?]; by subst. }
    assert (Hhead : ∀ A (x y : A),
              (if decide (rc_Name r ∈ rc_Name r :: (rc_Name <$> runtimes)) then x else y)
              = x).
    { intros A x y.
      destruct (decide (rc_Name r ∈ rc_Name r :: (rc_Name <$> runtimes))) as [|Hn]; [done|].
      exfalso. apply Hn, elem_of_cons. by left. }
    destruct (readSeq (rc_Name r)) as [buf|e] eqn:Hread.
    + intros Hloop. rewrite (IH _ Hloop). clear IH Hloop.
      destruct (decide (rc_Name r = name)) as [<-|Hne].
      * rewrite Hhead, Hread, lookup_insert_eq.
        by destruct (decide (rc_Name r ∈ rc_Name <$> runtimes)).
      * rewrite Hcons by done. by rewrite lookup_insert_ne.
    + destruct e; try done.
      intros Hloop. rewrite (IH _ Hloop). clear IH Hloop.
      destruct (decide (rc_Name r = name)) as [<-|Hne].
      * rewrite Hhead, Hread.
        by destruct (decide (rc_Name r ∈ rc_Name <$> runtimes)).
      * by rewrite Hcons.
Qed.

Lemma seqsLoop_succeeds (runtimes : list RuntimeConfig) (m0 : gmap string string) :
  (∀ r, r ∈ runtimes →
        is_ok (readSeq (rc_Name r)) = true ∨ readSeq (rc_Name r) = Err ErrObjectNotExist) →
  is_ok (seqsLoop client bucket runtimes m0) = true.
Proof.
  revert m0. induction runtimes as [|r runtimes IH]; intros m0 Hall; simpl; [done|].
  assert (Hrest : ∀ r', r' ∈ runtimes →
            is_ok (readSeq (rc_Name r')) = true
            ∨ readSeq (rc_Name r') = Err ErrObjectNotExist).
  { intros r' Hin. apply Hall, elem_of_cons. by right. }
  destruct (Hall r) as [Hok|Hne]; [apply elem_of_cons; by left| |].
  - destruct (readSeq (rc_Name r)); [by apply IH|done].
  - rewrite Hne. by apply IH.
Qed.

Lemma seqsLoop_fails (runtimes : list RuntimeConfig) (m0 : gmap string string)
    (r : RuntimeConfig) (e : error) :
  r ∈ runtimes → readSeq (rc_Name r) = Err e → e ≠ ErrObjectNotExist →
  is_ok (seqsLoop client bucket runtimes m0) = false.
Proof.
  revert m0. induction runtimes as [|r' runtimes IH]; intros m0 Hin Hread Hne; simpl.
  { by apply elem_of_nil in Hin. }
  apply elem_of_cons in Hin as [<-|Hin].
  - rewrite Hread. by destruct e.
  - destruct (readSeq (rc_Name r')) as [buf|e']; [by apply IH|].
    destruct e'; try done. by apply IH.
Qed.

End SeqsProps.

Section BucketProps.

Variable Unmarshal : string → result CmdDescriptor.
Variable rangeOrder : gmap string string → list (string * string).
Variable completion : string → list nat.
Variable versionID : string.
Hypothesis rangeOrder_perm : ∀ m, rangeOrder m ≡ₚ map_to_list m.

(** C10. For a runtime listed in the config map whose seq object does
    not exist: a map [Seqs] returns has no entry for it; [Seqs] returns a
    map when every listed seq object is either read or does not exist; and
    when [Seqs] returns a map, the store [Load] leaves behind has no entry
    for that runtime. Any other error reading a listed seq object makes
    [Seqs] fail. *)
Theorem Seqs_missing_seq_object (c : ConfigMapBucket) (bucket rest : string)
    (cm : ConfigMapPb) (r : RuntimeConfig) :
  splitGCSPath (URI c) = Ok (bucket, rest) →
  cfgMap c = Ok cm →
  r ∈ cm_Runtimes cm →
  (storageReadAll (StorageClient c) bucket (Join (rc_Name r) "seq") = Err ErrObjectNotExist →
   (∀ m, Seqs c = Ok m → m !! rc_Name r = None)
   ∧ ((∀ r', r' ∈ cm_Runtimes cm →
         is_ok (storageReadAll (StorageClient c) bucket (Join (rc_Name r') "seq")) = true
         ∨ storageReadAll (StorageClient c) bucket (Join (rc_Name r') "seq")
           = Err ErrObjectNotExist) →
      is_ok (Seqs c) = true)
   ∧ (∀ loader store force,
        is_ok (Seqs c) = true →
        lastConfigs
          (Load Unmarshal rangeOrder completion versionID
                {| cml_ConfigMap := c; cml_ConfigLoader := loader;
                   cml_ConfigStore := store |} force).2 !! rc_Name r = None))
  ∧ (∀ e, storageReadAll (StorageClient c) bucket (Join (rc_Name r) "seq") = Err e →
          e ≠ ErrObjectNotExist → is_ok (Seqs c) = false).
Proof.
  intros Huri Hcm Hin.
  assert (Hseqs : Seqs c = seqsLoop (StorageClient c) bucket (cm_Runtimes cm) ∅).
  { simpl. unfold ConfigMapBucket_Seqs. by rewrite Huri, Hcm. }
  assert (Hname : rc_Name r ∈ rc_Name <$> cm_Runtimes cm).
  { apply list_elem_of_fmap. by exists r. }
  split.
  - intros Hmissing.
    assert (Homit : ∀ m, Seqs c = Ok m → m !! rc_Name r = None).
    { intros m Hm. rewrite Hseqs in Hm.
      rewrite (seqsLoop_lookup _ _ _ _ _ _ Hm), Hmissing.
      by destruct (decide _). }
    split; [done|]. split.
    + intros Hall. rewrite Hseqs. by apply seqsLoop_succeeds.
    + intros loader store force Hok.
      destruct (Seqs c) as [m|] eqn:Hm; [|done].
      apply (Load_store_entry Unmarshal rangeOrder completion versionID rangeOrder_perm
               {| cml_ConfigMap := c; cml_ConfigLoader := loader;
                  cml_ConfigStore := store |} force m (rc_Name r) Hm).
      by apply Homit.
  - intros e Hread Hne. rewrite Hseqs. by eapply seqsLoop_fails.
Qed.

End BucketProps.

(** ** The theorems on the demo bucket *)

Lemma rangeSorted_perm (m : gmap string string) : rangeSorted m ≡ₚ map_to_list m.
Proof. done. Qed.

Lemma demo_attrsList (client : Client) (addr : string) :
  listObjects client = listObjects demoClient →
  attrsListOf client "gs://bkt/clang" (demoRuntime addr)
  = [ {| attrs_Name := "clang/linux/descriptors/h1"; attrs_Updated := 10 |};
      h2Object;
      {| attrs_Name := "clang/linux/descriptors/h3"; attrs_Updated := 40 |} ].
Proof. unfold attrsListOf. intros ->. by vm_compute. Qed.

Lemma admissible_inOrder : admissible 1 3 (inOrder "gs://bkt/clang").
Proof.
  split; [done|]. intros p i Hp.
  destruct p as [|[|[|p]]]; simpl in Hp; simplify_eq; lia.
Qed.

Lemma admissible_lastFirst : admissible 4 3 lastFirst.
Proof.
  split.
  - unfold lastFirst. simpl.
    transitivity [0; 2; 1]; [apply perm_swap|apply perm_skip, perm_swap].
  - intros p i Hp.
    destruct p as [|[|[|p]]]; simpl in Hp; simplify_eq; lia.
Qed.

(** The serial and the parallel run of the demo fetch. *)
Lemma loadConfigs_parallel_same_demo :
  value_of (loadConfigs demoUnmarshal demoClient "gs://bkt/clang" (demoRuntime "addr")
                        demoPlatform false (inOrder "gs://bkt/clang"))
  = value_of (loadConfigs demoUnmarshal demoClient "gs://bkt/clang" (demoRuntime "addr")
                          demoPlatform true lastFirst)
  ∧ is_ok (loadConfigs demoUnmarshal demoClient "gs://bkt/clang" (demoRuntime "addr")
                       demoPlatform false (inOrder "gs://bkt/clang"))
    = is_ok (loadConfigs demoUnmarshal demoClient "gs://bkt/clang" (demoRuntime "addr")
                         demoPlatform true lastFirst)
  ∧ ∀ confs,
      loadConfigs demoUnmarshal demoClient "gs://bkt/clang" (demoRuntime "addr")
                  demoPlatform true lastFirst = Ok confs →
      confs = omap (storedOf ∘ fetchOne demoUnmarshal demoClient (bucketOf "gs://bkt/clang")
                                        (demoRuntime "addr") demoPlatform)
                   (attrsListOf demoClient "gs://bkt/clang" (demoRuntime "addr")).
Proof.
  apply (loadConfigs_parallel_same demoUnmarshal 1 demoClient "gs://bkt/clang"
           (demoRuntime "addr") demoPlatform (inOrder "gs://bkt/clang") lastFirst).
  - rewrite demo_attrsList by done. exact admissible_inOrder.
  - rewrite demo_attrsList by done. exact admissible_lastFirst.
Defined.

(** The demo fetch drops the denied gcc descriptor and keeps the two
    others. *)
Lemma loadConfigs_invalid_dropped_demo :
  length (value_of (loadConfigs demoUnmarshal demoClient "gs://bkt/clang"
                                (demoRuntime "addr") demoPlatform true lastFirst)) = 2
  ∧ loadConfigs demoUnmarshal demoClient "gs://bkt/clang" (demoRuntime "addr")
                demoPlatform true lastFirst
    = Ok (omap (storedOf ∘ fetchOne demoUnmarshal demoClient (bucketOf "gs://bkt/clang")
                                    (demoRuntime "addr") demoPlatform)
               (attrsListOf demoClient "gs://bkt/clang" (demoRuntime "addr"))).
Proof.
  split; [by vm_compute|].
  apply (loadConfigs_invalid_dropped demoUnmarshal 1 demoClient "gs://bkt/clang"
           (demoRuntime "addr") demoPlatform true lastFirst).
  - reflexivity.
  - reflexivity.
  - intros bucket obj [= <- <-]. reflexivity.
  - rewrite demo_attrsList by done. exact admissible_lastFirst.
  - intros attrs Hin. rewrite demo_attrsList in Hin by done.
    apply list_elem_of_In in Hin. simpl in Hin.
    destruct Hin as [<-|[<-|[<-|[]]]]; reflexivity.
Defined.

(** The same fetch over the bucket whose second descriptor cannot be
    read. *)
Lemma loadConfigs_fetch_error_fatal_demo :
  h2Object ∈ attrsListOf brokenClient "gs://bkt/clang" (demoRuntime "addr")
  ∧ is_ok (loadConfigs demoUnmarshal brokenClient "gs://bkt/clang" (demoRuntime "addr")
                       demoPlatform true lastFirst) = false
  ∧ value_of (loadConfigs demoUnmarshal brokenClient "gs://bkt/clang" (demoRuntime "addr")
                          demoPlatform true lastFirst) = [].
Proof.
  assert (Hin : h2Object ∈ attrsListOf brokenClient "gs://bkt/clang" (demoRuntime "addr")).
  { rewrite demo_attrsList by done. apply elem_of_cons. right. apply elem_of_cons. by left. }
  split; [exact Hin|].
  pose proof (loadConfigs_fetch_error_fatal demoUnmarshal 1 brokenClient "gs://bkt/clang"
                (demoRuntime "addr") demoPlatform true lastFirst h2Object
                (Errorf "load %s: %v"
                        [ArgS "clang/linux/descriptors/h2";
                         ArgErr (ErrExternal "storage: i/o timeout")])) as Hthm.
  destruct Hthm as (Hok & Hnil & _).
  - rewrite demo_attrsList by done. exact admissible_lastFirst.
  - exact Hin.
  - reflexivity.
  - by split.
Defined.

(** ** The reconciliation pass on the demo source *)

(** C1 as stated fails for a new runtime whose fetched token is empty: it
    is absent from the store, present in the fetched map, and not marked
    for reload; the pass ends with [ErrNoUpdate]. *)
Lemma Load_new_runtime_empty_token :
  lastConfigs emptyStore !! "clang" = None
  ∧ ({[ "clang" := "" ]} : gmap string string) !! "clang" = Some ""
  ∧ reloadSet emptyStore {[ "clang" := "" ]} !! "clang" = None
  ∧ Load demoUnmarshal rangeSorted inOrder "v1"
         (demoReconciler {[ "clang" := "" ]} "addr" emptyStore) false
    = (Err ErrNoUpdate, emptyStore).
Proof. repeat split; by vm_compute. Qed.

(** A new runtime with token "7" over the empty store: it is marked, and
    nothing is stored that could be deleted. *)
Lemma Load_reloads_and_deletes_demo :
  is_Some (reloadSet emptyStore {[ "clang" := "7" ]} !! "clang")
  ∧ ∀ name seq,
      reloadSet (cml_ConfigStore (demoReconciler {[ "clang" := "7" ]} "addr" emptyStore))
                {[ "clang" := "7" ]} !! name = Some seq →
      ({[ "clang" := "7" ]} : gmap string string) !! name = Some seq.
Proof.
  destruct (Load_reloads_and_deletes demoUnmarshal rangeSorted inOrder "v1"
              rangeSorted_perm
              (demoReconciler {[ "clang" := "7" ]} "addr" emptyStore)
              {[ "clang" := "7" ]}) as (Hmark & Htok & _); [reflexivity|].
  split; [|exact Htok].
  apply (Hmark "clang"). exists "7". split; [done|]. right. by split.
Defined.

(** C2 as stated fails when a marked runtime has no service address: the
    first pass skips it and returns a response, the store stays as it
    was, and the second pass over the same source returns a response
    again, not [ErrNoUpdate]. *)
Lemma Load_twice_skipped_runtime :
  Load demoUnmarshal rangeSorted inOrder "v1"
       (demoReconciler {[ "clang" := "7" ]} "" emptyStore) false
  = (Ok {| resp_VersionId := "v1"; resp_Configs := [] |}, emptyStore)
  ∧ Load demoUnmarshal rangeSorted inOrder "v1"
         (withStore (demoReconciler {[ "clang" := "7" ]} "" emptyStore)
                    (Load demoUnmarshal rangeSorted inOrder "v1"
                          (demoReconciler {[ "clang" := "7" ]} "" emptyStore) false).2)
         false
    = (Ok {| resp_VersionId := "v1"; resp_Configs := [] |}, emptyStore).
Proof. split; by vm_compute. Qed.

(** With a service address the first pass loads the runtime and the
    second one returns [ErrNoUpdate]. *)
Lemma Load_no_update_demo :
  is_ok (Load demoUnmarshal rangeSorted inOrder "v1"
              (demoReconciler {[ "clang" := "7" ]} "addr" emptyStore) false).1 = true
  ∧ Load demoUnmarshal rangeSorted inOrder "v1"
         (withStore (demoReconciler {[ "clang" := "7" ]} "addr" emptyStore)
                    (Load demoUnmarshal rangeSorted inOrder "v1"
                          (demoReconciler {[ "clang" := "7" ]} "addr" emptyStore) false).2)
         false
    = (Err ErrNoUpdate,
       (Load demoUnmarshal rangeSorted inOrder "v1"
             (demoReconciler {[ "clang" := "7" ]} "addr" emptyStore) false).2).
Proof.
  assert (Hok : is_ok (Load demoUnmarshal rangeSorted inOrder "v1"
                  (demoReconciler {[ "clang" := "7" ]} "addr" emptyStore) false).1 = true).
  { by vm_compute. }
  split; [exact Hok|].
  apply (Load_no_update demoUnmarshal rangeSorted inOrder "v1" rangeSorted_perm
           (demoReconciler {[ "clang" := "7" ]} "addr" emptyStore)
           {[ "clang" := "7" ]}).
  - reflexivity.
  - exact Hok.
  - intros rcs name rt [= <-] _ Hrt.
    apply lookup_singleton_Some in Hrt as [_ <-]. done.
Defined.

(** A marked runtime without metadata, and one without address. *)
Lemma Load_runtime_metadata_demo :
  (Load demoUnmarshal rangeSorted inOrder "v1"
        (orphanReconciler {[ "clang" := "7" ]} emptyStore) false).1
  = Err (Errorf "runtime config %s not found" [ArgS "clang"])
  ∧ lastConfigs (Load demoUnmarshal rangeSorted inOrder "v1"
                      (demoReconciler {[ "clang" := "7" ]} "" staleStore) false).2 !! "clang"
    = Some {| cs_seq := "3"; cs_configs := [] |}
  ∧ is_ok (Load demoUnmarshal rangeSorted inOrder "v1"
                (demoReconciler {[ "clang" := "7" ]} "" staleStore) false).1 = true.
Proof.
  split.
  - destruct (Load_runtime_metadata demoUnmarshal rangeSorted inOrder "v1"
                rangeSorted_perm (orphanReconciler {[ "clang" := "7" ]} emptyStore)
                false {[ "clang" := "7" ]} "bkt" ∅ "clang")
      as [Hmissing _]; [reflexivity..| |].
    + exists "7". by vm_compute.
    + destruct Hmissing as [_ Hone]; [done|]. apply (Hone "7"). by vm_compute.
  - destruct (Load_runtime_metadata demoUnmarshal rangeSorted inOrder "v1"
                rangeSorted_perm (demoReconciler {[ "clang" := "7" ]} "" staleStore)
                false {[ "clang" := "7" ]} "bkt" {[ "clang" := demoRuntime "" ]} "clang")
      as [_ Hskip]; [reflexivity..| |].
    + exists "7". by vm_compute.
    + destruct (Hskip (demoRuntime "")) as [Hentry Hok]; [by vm_compute|done|].
      split; [by rewrite Hentry|].
      apply Hok. intros name' seq' Hmark. exists (demoRuntime "").
      assert (name' = "clang") as ->.
      { destruct (decide (name' = "clang")) as [|Hne]; [done|].
        rewrite reloadSet_lookup, lookup_singleton_ne in Hmark by done. done. }
      split; [by vm_compute|by left].
Defined.

(** gcc is listed but has no seq object: [Seqs] leaves it out and the
    pass removes it from the store. *)
Lemma Seqs_missing_seq_object_demo :
  Seqs demoBucket = Ok {[ "clang" := "7" ]}
  ∧ lastConfigs (Load demoUnmarshal rangeSorted inOrder "v1"
                      {| cml_ConfigMap := demoBucket; cml_ConfigLoader := demoLoader;
                         cml_ConfigStore := gccStore |} false).2 !! "gcc" = None.
Proof.
  split; [by vm_compute|].
  destruct (Seqs_missing_seq_object demoUnmarshal rangeSorted inOrder "v1"
              rangeSorted_perm demoBucket "bkt" ""
              {| cm_Runtimes := [demoRuntime "addr"; gccRuntime] |} gccRuntime)
    as [Hmissing _]; [reflexivity..| |].
  - apply elem_of_cons. right. apply elem_of_cons. by left.
  - destruct Hmissing as (_ & _ & Hload); [reflexivity|].
    apply (Hload demoLoader gccStore false). by vm_compute.
Defined.


(** * Further properties of the loader *)

(** ** splitGCSPath *)

Lemma cutSlash_parts (s h : string) (t : option string) :
  cutSlash s = (h, t) →
  hasSlash h = false
  ∧ s = match t with Some t => h +:+ "/" +:+ t | None => h end.
Proof.
  revert h t. induction s as [|c s IH]; intros h t; simpl.
  - by intros [= <- <-].
  - destruct (is_slash c) eqn:Hc.
    + intros [= <- <-]. split; [done|]. simpl.
      unfold is_slash in Hc. apply Ascii.eqb_eq in Hc. by subst.
    + destruct (cutSlash s) as [h' t'] eqn:Hcut. intros [= <- <-].
      destruct (IH h' t' eq_refl) as [Hh Hs]. simpl. rewrite Hc, Hh. split; [done|].
      rewrite Hs at 1. by destruct t'.
Qed.

Lemma cutSlash_join (bucket name : string) :
  hasSlash bucket = false →
  cutSlash (bucket +:+ "/" +:+ name) = (bucket, Some name).
Proof.
  induction bucket as [|c bucket IH]; simpl; [done|].
  intros [Hc Hb]%orb_false_iff. by rewrite Hc, IH.
Qed.

Lemma HasPrefix_append (p s : string) : HasPrefix (p +:+ s) p = true.
Proof.
  induction p as [|c p IH]; simpl; [by destruct s|].
  by rewrite Ascii.eqb_refl.
Qed.

Lemma drop_bytes_append (p s : string) : drop_bytes (String.length p) (p +:+ s) = s.
Proof. induction p as [|c p IH]; simpl; [by destruct s|done]. Qed.

(** The uri [Load] builds for a runtime, "gs://<bucket>/<name>", is split
    by [loadConfigs] into that bucket and that name, provided the bucket
    has no slash; the name may have any. *)
Theorem splitGCSPath_of_runtime_uri (bucket name : string) :
  hasSlash bucket = false →
  splitGCSPath ("gs://" +:+ bucket +:+ "/" +:+ name) = Ok (bucket, name).
Proof.
  intros Hb. unfold splitGCSPath.
  rewrite HasPrefix_append. simpl negb. cbv iota.
  change (slice_from ("gs://" +:+ bucket +:+ "/" +:+ name) 5)
    with (drop_bytes (String.length "gs://") ("gs://" +:+ bucket +:+ "/" +:+ name)).
  rewrite drop_bytes_append. by rewrite cutSlash_join.
Qed.

Lemma splitGCSPath_of_runtime_uri_demo :
  splitGCSPath ("gs://" +:+ "bkt" +:+ "/" +:+ "clang/linux") = Ok ("bkt", "clang/linux").
Proof. apply (splitGCSPath_of_runtime_uri "bkt" "clang/linux"). reflexivity. Defined.

Lemma HasPrefix_split (s p : string) :
  HasPrefix s p = true → s = p +:+ drop_bytes (String.length p) s.
Proof.
  revert s. induction p as [|c p IH]; intros s.
  - intros _. by destruct s.
  - destruct s as [|d s]; simpl; [done|].
    destruct (Ascii.eqb c d) eqn:Hc; [|done].
    apply Ascii.eqb_eq in Hc as ->. intros Hp.
    change (String d p +:+ drop_bytes (String.length p) s)
      with (String d (p +:+ drop_bytes (String.length p) s)).
    by rewrite <- (IH s Hp).
Qed.

(** [splitGCSPath] fails exactly on a uri that does not start with
    "gs://". What it returns puts the uri back together: the bucket has no
    slash, and the uri is "gs://" followed by the bucket alone (then the
    object is empty) or by bucket, slash and object. *)
Theorem splitGCSPath_parts (uri : string) :
  is_ok (splitGCSPath uri) = HasPrefix uri "gs://"
  ∧ ∀ bucket obj,
      splitGCSPath uri = Ok (bucket, obj) →
      hasSlash bucket = false
      ∧ (uri = "gs://" +:+ bucket +:+ "/" +:+ obj
         ∨ (obj = "" ∧ uri = "gs://" +:+ bucket)).
Proof.
  unfold splitGCSPath.
  destruct (HasPrefix uri "gs://") eqn:Hp; simpl.
  - apply HasPrefix_split in Hp. change (String.length "gs://") with 5 in Hp.
    change (slice_from uri 5) with (drop_bytes 5 uri).
    destruct (cutSlash (drop_bytes 5 uri)) as [h t] eqn:Hcut.
    destruct (cutSlash_parts _ _ _ Hcut) as [Hh Hs].
    destruct t as [t|]; (split; [done|]); intros bucket obj [= <- <-];
      (split; [done|]); rewrite Hp, Hs; by eauto.
  - split; [done|]. by intros bucket obj.
Qed.

(** ** ConfigStore *)

Lemma ConfigStore_List_elem (c : ConfigStore) (name : string) :
  name ∈ ConfigStore_List c ↔ is_Some (lastConfigs c !! name).
Proof.
  rewrite <- elem_of_dom, <- ConfigStore_List_dom. by rewrite elem_of_list_to_set.
Qed.

(** [Set] then [Seq] reads the token back and leaves the other names
    alone; [Delete] makes [Seq] read the empty token and takes the name off
    [List]; a [Set] that is deleted again leaves no trace. *)
Theorem ConfigStore_Set_Seq_Delete (c : ConfigStore) (name seq : string)
    (confs : list Config) :
  ConfigStore_Seq (ConfigStore_Set c name seq confs) name = seq
  ∧ (∀ other, other ≠ name →
       ConfigStore_Seq (ConfigStore_Set c name seq confs) other = ConfigStore_Seq c other
       ∧ ConfigStore_Seq (ConfigStore_Delete c name) other = ConfigStore_Seq c other)
  ∧ ConfigStore_Seq (ConfigStore_Delete c name) name = ""
  ∧ (name ∈ ConfigStore_List (ConfigStore_Set c name seq confs))
  ∧ (name ∉ ConfigStore_List (ConfigStore_Delete c name))
  ∧ ConfigStore_Delete (ConfigStore_Set c name seq confs) name = ConfigStore_Delete c name.
Proof.
  unfold ConfigStore_Seq, ConfigStore_Set, ConfigStore_Delete.
  repeat split; simpl.
  - by rewrite lookup_insert_eq.
  - by rewrite lookup_insert_ne.
  - by rewrite lookup_delete_ne.
  - by rewrite lookup_delete_eq.
  - apply ConfigStore_List_elem. simpl. rewrite lookup_insert_eq. by eauto.
  - rewrite ConfigStore_List_elem. simpl. rewrite lookup_delete_eq. by intros [? ?].
  - by rewrite delete_insert_eq.
Qed.

(** [List] returns every stored name once, in ascending byte order. *)
Theorem ConfigStore_List_sorted (c : ConfigStore) :
  Sorted (λ a b, Is_true (String.leb a b)) (ConfigStore_List c)
  ∧ NoDup (ConfigStore_List c)
  ∧ ∀ name, name ∈ ConfigStore_List c ↔ is_Some (lastConfigs c !! name).
Proof.
  split; [|split].
  - unfold ConfigStore_List, sortStrings. apply Sorted_merge_sort.
    intros a b. destruct (String.leb_total a b) as [H|H]; rewrite H; by eauto.
  - unfold ConfigStore_List, sortStrings. rewrite merge_sort_Permutation.
    apply NoDup_fst_map_to_list.
  - apply ConfigStore_List_elem.
Qed.

Lemma ConfigResp_fold (m : gmap string configs) (names : list string)
    (acc : list Config) :
  fold_left (λ acc name,
               match m !! name with
               | Some confs => acc ++ cs_configs confs
               | None => acc
               end) names acc
  = acc ++ concat ((λ name, default [] (cs_configs <$> m !! name)) <$> names).
Proof.
  revert acc. induction names as [|name names IH]; intros acc; simpl.
  - by rewrite app_nil_r.
  - rewrite IH. destruct (m !! name) as [cs|]; simpl; [|done].
    by rewrite app_assoc.
Qed.

(** [ConfigResp] carries the version of the hook and the stored record
    lists, one runtime after the other in the order of [List]; a record
    is served exactly when some stored runtime holds it. *)
Theorem ConfigResp_concat (c : ConfigStore) (versionID : string) :
  resp_VersionId (ConfigStore_ConfigResp c versionID) = versionID
  ∧ resp_Configs (ConfigStore_ConfigResp c versionID)
    = concat ((λ name, default [] (cs_configs <$> lastConfigs c !! name))
                <$> ConfigStore_List c)
  ∧ ∀ conf,
      conf ∈ resp_Configs (ConfigStore_ConfigResp c versionID) ↔
      ∃ name cs, lastConfigs c !! name = Some cs ∧ conf ∈ cs_configs cs.
Proof.
  assert (Hconcat : resp_Configs (ConfigStore_ConfigResp c versionID)
    = concat ((λ name, default [] (cs_configs <$> lastConfigs c !! name))
                <$> ConfigStore_List c)).
  { unfold ConfigStore_ConfigResp, ConfigStore_List. simpl. by rewrite ConfigResp_fold. }
  split; [done|]. split; [done|].
  intros conf. rewrite Hconcat, list_elem_of_In, in_concat. split.
  - intros (l & Hl & Hconf). apply list_elem_of_In in Hl, Hconf.
    apply list_elem_of_fmap in Hl as (name & -> & _).
    destruct (lastConfigs c !! name) as [cs|] eqn:Hcs; simpl in Hconf.
    + by exists name, cs.
    + by apply elem_of_nil in Hconf.
  - intros (name & cs & Hcs & Hconf). exists (cs_configs cs).
    split; [|by apply list_elem_of_In].
    apply list_elem_of_In, list_elem_of_fmap. exists name. rewrite Hcs. split; [done|].
    apply ConfigStore_List_elem. by eauto.
Qed.

(** ** What the fetcher reads and what it returns *)

Lemma compact_elem (slots : list (option Config)) (conf : Config) :
  conf ∈ compact slots ↔ Some conf ∈ slots.
Proof.
  induction slots as [|[c|] slots IH]; simpl.
  - split; intros H; by apply elem_of_nil in H.
  - rewrite !elem_of_cons, IH. split.
    + intros [->|?]; by eauto.
    + intros [[= ->]|?]; by eauto.
  - rewrite elem_of_cons, IH. split; [by eauto|]. by intros [?|?].
Qed.

Section FetcherReads.

Variable Unmarshal : string → result CmdDescriptor.
Variables (uri : string) (rc : RuntimeConfig) (platform : RemoteexecPlatform).

Lemma runPool_agree (client1 client2 : Client) (bucket : string)
    (attrsList : list ObjectAttrs) (sched : list nat) :
  (∀ attrs, attrs ∈ attrsList →
     storageReadAll client1 bucket (attrs_Name attrs)
     = storageReadAll client2 bucket (attrs_Name attrs)) →
  runPool Unmarshal client1 bucket rc platform attrsList sched
  = runPool Unmarshal client2 bucket rc platform attrsList sched.
Proof.
  intros Hread. unfold runPool.
  generalize {| confList := replicate (length attrsList) None; egErr := None |}.
  induction sched as [|i sched IH]; intros st; simpl; [done|].
  rewrite IH. f_equal. unfold runWorker.
  destruct (attrsList !! i) as [attrs|] eqn:Hi; [|done].
  unfold fetchOne, loadDescriptor. rewrite Hread; [done|].
  apply list_elem_of_lookup. by eauto.
Qed.

(** [loadConfigs] reads the bucket handle, the listing and the surviving
    objects, and nothing else: two storage clients that agree on those
    give the same result, for every completion order. Objects the listing
    filter drops are never read. *)
Theorem loadConfigs_reads_survivors_only (client1 client2 : Client)
    (parallel : bool) (sched : list nat) :
  hasBucket client1 (bucketOf uri) = hasBucket client2 (bucketOf uri) →
  (∀ obj, listObjects client1 (bucketOf uri) obj = listObjects client2 (bucketOf uri) obj) →
  (∀ attrs, attrs ∈ attrsListOf client1 uri rc →
     storageReadAll client1 (bucketOf uri) (attrs_Name attrs)
     = storageReadAll client2 (bucketOf uri) (attrs_Name attrs)) →
  loadConfigs Unmarshal client1 uri rc platform parallel sched
  = loadConfigs Unmarshal client2 uri rc platform parallel sched.
Proof.
  unfold loadConfigs, attrsListOf, bucketOf.
  destruct (splitGCSPath uri) as [[bucket obj]|e]; [|done].
  intros -> Hlist Hread. rewrite <- (Hlist obj).
  destruct (negb (hasBucket client2 bucket)); [done|].
  destruct (listObjects client1 bucket obj) as [listed [e|]]; [done|].
  simpl in Hread. by rewrite (runPool_agree client1 client2).
Qed.

(** Every record [loadConfigs] returns, for whatever completion order,
    was built from a surviving object whose descriptor was read, parsed
    and passed the three checks. *)
Lemma loadConfigs_records (client : Client) (parallel : bool) (sched : list nat)
    (confs : list Config) (conf : Config) :
  loadConfigs Unmarshal client uri rc platform parallel sched = Ok confs →
  conf ∈ confs →
  ∃ attrs d,
    attrs ∈ attrsListOf client uri rc
    ∧ loadDescriptor Unmarshal client (bucketOf uri) (attrs_Name attrs) = Ok d
    ∧ ¬ invalidDescriptor rc d
    ∧ conf = configOf rc platform attrs d.
Proof.
  unfold loadConfigs, attrsListOf, bucketOf.
  destruct (splitGCSPath uri) as [[bucket obj]|e]; [|done].
  destruct (negb (hasBucket client bucket)); [done|].
  destruct (listObjects client bucket obj) as [listed [e|]]; [done|].
  simpl. set (attrsList := List.filter (keepObject rc) listed).
  destruct (egErr _); [done|]. intros [= <-] Hin.
  apply compact_elem, list_elem_of_lookup in Hin as [j Hj].
  unfold runPool in Hj.
  destruct (fold_worker_slots Unmarshal client bucket rc platform attrsList sched
              {| confList := replicate (length attrsList) None; egErr := None |} j)
    as [_ Hslot]; [simpl; by rewrite length_replicate|].
  rewrite Hslot in Hj. clear Hslot. simpl in Hj.
  assert (Hinit : replicate (length attrsList) (@None Config) !! j ≠ Some (Some conf)).
  { intros [? _]%lookup_replicate. done. }
  destruct (attrsList !! j) as [attrs|] eqn:Hattrs; simpl in Hj; [|done].
  destruct (storedOf (fetchOne Unmarshal client bucket rc platform attrs)) as [conf'|] eqn:Hst;
    [|done].
  destruct (decide (j ∈ sched)); [|done]. injection Hj as ->.
  unfold fetchOne in Hst.
  destruct (loadDescriptor Unmarshal client bucket (attrs_Name attrs)) as [d|e1] eqn:Hd; [|done].
  exists attrs, d. split; [apply list_elem_of_lookup; by eauto|]. split; [done|].
  unfold invalidDescriptor.
  destruct (checkSelector rc (cd_Selector d)) as [e2|] eqn:Hsel; [done|].
  destruct (cd_Setup d) as [setup|] eqn:Hsetup; [|done].
  destruct (setup_PathType setup) eqn:Hpt; simpl in Hst; [done| |];
    injection Hst as <-; (split; [|done]);
    intros [[? ?]|[?|(s & [= <-] & ?)]]; congruence.
Qed.

End FetcherReads.

(** ** ConfigLoader.Load *)

(** Every record [ConfigLoader.Load] returns for a runtime carries the
    runtime's platform and access-control reference; a record with a
    descriptor carries the runtime's service address and a descriptor that
    passed the checks; and the record without descriptor is there exactly
    when the runtime has a [PlatformRuntimeConfig], once, at the end. *)
Theorem ConfigLoader_Load_records (Unmarshal : string → result CmdDescriptor)
    (c : ConfigLoader) (uri : string) (rc : RuntimeConfig) (sched : list nat)
    (confs : list Config) :
  ConfigLoader_Load Unmarshal c uri rc sched = Ok confs →
  (∀ conf, conf ∈ confs →
     cfg_RemoteexecPlatform conf = Some (platformOf rc)
     ∧ cfg_Acl conf = rc_Acl rc
     ∧ ∀ d, cfg_CmdDescriptor conf = Some d →
            cfg_Target conf = Some (rc_ServiceAddr rc) ∧ ¬ invalidDescriptor rc d)
  ∧ match rc_PlatformRuntimeConfig rc with
    | None => ∀ conf, conf ∈ confs → is_Some (cfg_CmdDescriptor conf)
    | Some prc =>
        ∃ confs', confs = confs' ++ [platformConfigOf rc prc]
                  ∧ ∀ conf, conf ∈ confs' → is_Some (cfg_CmdDescriptor conf)
    end.
Proof.
  unfold ConfigLoader_Load. fold (platformOf rc).
  destruct (loadConfigs Unmarshal (cl_StorageClient c) uri rc (platformOf rc)
              (cl_EnableParallel c) sched) as [confs0|e] eqn:Hload; [|done].
  pose proof (loadConfigs_records Unmarshal uri rc (platformOf rc) (cl_StorageClient c)
                (cl_EnableParallel c) sched confs0) as Hrec.
  assert (Hdesc : ∀ conf, conf ∈ confs0 →
            cfg_RemoteexecPlatform conf = Some (platformOf rc)
            ∧ cfg_Acl conf = rc_Acl rc
            ∧ is_Some (cfg_CmdDescriptor conf)
            ∧ ∀ d, cfg_CmdDescriptor conf = Some d →
                   cfg_Target conf = Some (rc_ServiceAddr rc) ∧ ¬ invalidDescriptor rc d).
  { intros conf Hin. destruct (Hrec conf Hload Hin) as (attrs & d & _ & _ & Hvalid & ->).
    simpl. split; [done|]. split; [done|]. split; [by eauto|].
    intros d' [= <-]. by split. }
  destruct (rc_PlatformRuntimeConfig rc) as [prc|] eqn:Hprc; intros [= <-].
  - split.
    + intros conf [Hin|Hin]%elem_of_app.
      * destruct (Hdesc conf Hin) as (? & ? & _ & ?). done.
      * apply list_elem_of_singleton in Hin as ->.
        fold (platformConfigOf rc prc). by repeat split.
    + exists confs0. split; [done|]. intros conf Hin. by apply Hdesc.
  - split.
    + intros conf Hin. destruct (Hdesc conf Hin) as (? & ? & _ & ?). done.
    + intros conf Hin. by apply Hdesc.
Qed.

Lemma ConfigLoader_Load_records_demo :
  length (value_of (ConfigLoader_Load demoUnmarshal demoLoader "gs://bkt/clang"
                                      (demoRuntime "addr") lastFirst)) = 2
  ∧ ∀ conf,
      conf ∈ value_of (ConfigLoader_Load demoUnmarshal demoLoader "gs://bkt/clang"
                                         (demoRuntime "addr") lastFirst) →
      is_Some (cfg_CmdDescriptor conf).
Proof.
  split; [by vm_compute|].
  destruct (ConfigLoader_Load_records demoUnmarshal demoLoader "gs://bkt/clang"
              (demoRuntime "addr") lastFirst
              (value_of (ConfigLoader_Load demoUnmarshal demoLoader "gs://bkt/clang"
                                           (demoRuntime "addr") lastFirst)))
    as [_ Hall]; [by vm_compute|].
  exact Hall.
Defined.

(** ** ConfigMapBucket.RuntimeConfigs and Seqs *)

Lemma RuntimeConfigs_fold (addr : string) (runtimes : list RuntimeConfig)
    (m0 : gmap string RuntimeConfig) (name : string) (rt : RuntimeConfig) :
  fold_left
    (λ (m : gmap string RuntimeConfig) rt,
       let rt := if String.eqb (rc_ServiceAddr rt) ""
                 then withServiceAddr rt addr else rt in
       <[rc_Name rt := rt]> m)
    runtimes m0 !! name = Some rt →
  (m0 !! name = Some rt ∧ name ∉ rc_Name <$> runtimes)
  ∨ ∃ rt0, rt0 ∈ runtimes ∧ rc_Name rt0 = name
           ∧ rt = if String.eqb (rc_ServiceAddr rt0) ""
                  then withServiceAddr rt0 addr else rt0.
Proof.
  revert m0. induction runtimes as [|r runtimes IH]; intros m0; simpl.
  - intros Hm. left. split; [done|]. apply not_elem_of_nil.
  - intros Hm. destruct (IH _ Hm) as [[Hm0 Hn]|(rt0 & Hin & Hname & Hrt)].
    + assert (Hkey : rc_Name (if String.eqb (rc_ServiceAddr r) ""
                              then withServiceAddr r addr else r) = rc_Name r).
      { by destruct (String.eqb _ _). }
      rewrite Hkey in Hm0. destruct (decide (rc_Name r = name)) as [Heq|Hne].
      * rewrite <- Heq, lookup_insert_eq in Hm0. injection Hm0 as <-.
        right. exists r. split; [apply elem_of_cons; by left|done].
      * rewrite lookup_insert_ne in Hm0 by done. left. split; [done|].
        intros [?|?]%elem_of_cons; by subst.
    + right. exists rt0. split; [apply elem_of_cons; by right|done].
Qed.

Lemma RuntimeConfigs_fold_dom (addr : string) (runtimes : list RuntimeConfig)
    (m0 : gmap string RuntimeConfig) (name : string) :
  is_Some (fold_left
    (λ (m : gmap string RuntimeConfig) rt,
       let rt := if String.eqb (rc_ServiceAddr rt) ""
                 then withServiceAddr rt addr else rt in
       <[rc_Name rt := rt]> m)
    runtimes m0 !! name)
  ↔ is_Some (m0 !! name) ∨ name ∈ rc_Name <$> runtimes.
Proof.
  revert m0. induction runtimes as [|r runtimes IH]; intros m0.
  - simpl. split; [by left|]. intros [?|Hin]; [done|]. by apply elem_of_nil in Hin.
  - cbn [fold_left]. rewrite fmap_cons, IH.
    assert (Hkey : rc_Name (if String.eqb (rc_ServiceAddr r) ""
                            then withServiceAddr r addr else r) = rc_Name r).
    { by destruct (String.eqb _ _). }
    rewrite Hkey, elem_of_cons. destruct (decide (rc_Name r = name)) as [<-|Hne].
    + rewrite lookup_insert_eq. split; [|by eauto]. intros _. right. by left.
    + rewrite lookup_insert_ne by done. split.
      * intros [?|?]; by eauto.
      * intros [?|[?|?]]; [by eauto|by subst|by eauto].
Qed.

(** [RuntimeConfigs] fails exactly when the config map cannot be read.
    Otherwise it has one entry per listed runtime name, stored under the
    runtime's own name, that is a listed runtime in which an empty
    service address is replaced by [RemoteexecAddr]; so with a
    [RemoteexecAddr] configured no entry has an empty address. *)
Theorem RuntimeConfigs_entries (c : ConfigMapBucket) :
  match cfgMap c with
  | Err e => RuntimeConfigs c = Err e
  | Ok cm =>
      ∃ m, RuntimeConfigs c = Ok m
           ∧ (∀ name, is_Some (m !! name) ↔ name ∈ rc_Name <$> cm_Runtimes cm)
           ∧ ∀ name rt, m !! name = Some rt →
               rc_Name rt = name
               ∧ (∃ rt0, rt0 ∈ cm_Runtimes cm
                         ∧ rt = if String.eqb (rc_ServiceAddr rt0) ""
                                then withServiceAddr rt0 (RemoteexecAddr c) else rt0)
               ∧ (RemoteexecAddr c ≠ "" → rc_ServiceAddr rt ≠ "")
  end.
Proof.
  simpl. unfold ConfigMapBucket_RuntimeConfigs.
  destruct (cfgMap c) as [cm|e]; [|done].
  eexists. split; [done|]. split.
  - intros name. rewrite RuntimeConfigs_fold_dom, lookup_empty. split; [|by eauto].
    intros [[? ?]|?]; done.
  - intros name rt Hm.
    apply RuntimeConfigs_fold in Hm as [[Hm _]|(rt0 & Hin & Hname & Hrt)].
    { by rewrite lookup_empty in Hm. }
    split; [|split].
    + rewrite Hrt. by destruct (String.eqb _ _).
    + by exists rt0.
    + intros Haddr. rewrite Hrt.
      destruct (String.eqb (rc_ServiceAddr rt0) "") eqn:Hempty; simpl; [done|].
      by apply String.eqb_neq.
Qed.

(** The map [Seqs] returns holds, for every listed runtime whose seq
    object can be read, the content of that object, and nothing else. *)
Theorem Seqs_tokens (c : ConfigMapBucket) (bucket rest : string)
    (cm : ConfigMapPb) (m : gmap string string) :
  splitGCSPath (URI c) = Ok (bucket, rest) →
  cfgMap c = Ok cm →
  Seqs c = Ok m →
  ∀ name buf,
    m !! name = Some buf ↔
    name ∈ rc_Name <$> cm_Runtimes cm
    ∧ storageReadAll (StorageClient c) bucket (Join name "seq") = Ok buf.
Proof.
  intros Huri Hcm Hseqs name buf. simpl in Hseqs. unfold ConfigMapBucket_Seqs in Hseqs.
  rewrite Huri, Hcm in Hseqs.
  rewrite (seqsLoop_lookup _ _ _ _ _ name Hseqs), lookup_empty.
  destruct (decide (name ∈ rc_Name <$> cm_Runtimes cm)) as [Hin|Hin].
  - destruct (storageReadAll _ _ _) as [buf'|e].
    + split; [by intros [= <-]|]. by intros [_ [= <-]].
    + split; [done|]. by intros [_ ?].
  - split; [done|]. by intros [? _].
Qed.

Lemma Seqs_tokens_demo :
  Seqs demoBucket = Ok {[ "clang" := "7" ]}
  ∧ ∀ name buf,
      ({[ "clang" := "7" ]} : gmap string string) !! name = Some buf ↔
      name ∈ rc_Name <$> [demoRuntime "addr"; gccRuntime]
      ∧ storageReadAll demoClient "bkt" (Join name "seq") = Ok buf.
Proof.
  split; [by vm_compute|].
  apply (Seqs_tokens demoBucket "bkt" ""
           {| cm_Runtimes := [demoRuntime "addr"; gccRuntime] |} {[ "clang" := "7" ]});
    by vm_compute.
Defined.

(** ** mergePlatformProperties and the prebuilt filter, edge cases *)

Lemma merge_props (target : RemoteexecPlatform) (source : Platform) :
  rbe_Properties (mergePlatformProperties target (Some source))
  = rbe_Properties target
    ++ filter (λ p, prop_Name p ∉ (list_to_set (prop_Name <$> rbe_Properties target)
                                   : gset string))
              (plat_Properties source).
Proof. unfold mergePlatformProperties. simpl. by rewrite merge_fold. Qed.

Lemma filter_none {A : Type} (P : A → Prop) `{∀ x, Decision (P x)} (l : list A) :
  (∀ x, x ∈ l → ¬ P x) → filter P l = [].
Proof.
  induction l as [|x l IH]; intros Hall; [done|].
  rewrite filter_cons. destruct (decide (P x)) as [HP|_].
  - exfalso. apply (Hall x); [apply elem_of_cons; by left|done].
  - apply IH. intros y Hy. apply Hall, elem_of_cons. by right.
Qed.

(** Merging the same source a second time adds nothing, and a merge
    neither drops nor reorders what the target had: the merged list
    starts with the target's list, and every source name occurs in it. *)
Theorem mergePlatformProperties_idempotent (target : RemoteexecPlatform)
    (source : Platform) :
  mergePlatformProperties (mergePlatformProperties target (Some source)) (Some source)
  = mergePlatformProperties target (Some source)
  ∧ rbe_Properties target
    `prefix_of` rbe_Properties (mergePlatformProperties target (Some source))
  ∧ ∀ p, p ∈ plat_Properties source →
         prop_Name p ∈ prop_Name
           <$> rbe_Properties (mergePlatformProperties target (Some source)).
Proof.
  assert (Hnames : ∀ p, p ∈ plat_Properties source →
            prop_Name p ∈ prop_Name
              <$> rbe_Properties (mergePlatformProperties target (Some source))).
  { intros p Hp. rewrite merge_props, fmap_app, elem_of_app.
    destruct (decide (prop_Name p ∈ prop_Name <$> rbe_Properties target)) as [|Hn];
      [by left|right].
    apply list_elem_of_fmap. exists p. split; [done|].
    apply list_elem_of_filter. split; [|done]. by rewrite elem_of_list_to_set. }
  split; [|split; [|done]].
  - assert (Hprops :
      rbe_Properties (mergePlatformProperties
                        (mergePlatformProperties target (Some source)) (Some source))
      = rbe_Properties (mergePlatformProperties target (Some source))).
    { rewrite (merge_props (mergePlatformProperties target (Some source))).
      rewrite filter_none; [by rewrite app_nil_r|].
      intros p Hp Hn. apply Hn.
      rewrite elem_of_list_to_set. by apply Hnames. }
    clear Hnames. revert Hprops.
    generalize (mergePlatformProperties target (Some source)). intros merged Hprops.
    change (mergePlatformProperties merged (Some source))
      with {| rbe_Properties :=
                rbe_Properties (mergePlatformProperties merged (Some source));
              rbe_HasNsjail := rbe_HasNsjail merged |}.
    rewrite Hprops. by destruct merged.
  - rewrite merge_props. by eexists.
Qed.

(** A prefix on the deny-list wins over the allow-list, and the empty
    string on the deny-list rejects every object: every name starts with
    it. *)
Theorem keepObject_deny_first (rc : RuntimeConfig) (attrs : ObjectAttrs) :
  (∀ pre p,
     prebuiltNameOf (attrs_Name attrs) = Some pre →
     p ∈ rc_DisallowedPrebuilts rc → HasPrefix pre p = true →
     keepObject rc attrs = false)
  ∧ ("" ∈ rc_DisallowedPrebuilts rc → keepObject rc attrs = false)
  ∧ (prebuiltNameOf (attrs_Name attrs) = None → keepObject rc attrs = false).
Proof.
  assert (Hdeny : ∀ pre p,
     prebuiltNameOf (attrs_Name attrs) = Some pre →
     p ∈ rc_DisallowedPrebuilts rc → HasPrefix pre p = true →
     keepObject rc attrs = false).
  { intros pre p. unfold prebuiltNameOf, keepObject, checkPrebuilt.
    destruct (Index (attrs_Name attrs) "/descriptors" <? 0)%Z; [done|].
    intros [= <-] Hp Hmatch.
    destruct (firstPrefixOf _ (rc_DisallowedPrebuilts rc)) as [q|] eqn:Hfirst; [done|].
    rewrite firstPrefixOf_None in Hfirst. rewrite (Hfirst p Hp) in Hmatch. done. }
  assert (Hnone : prebuiltNameOf (attrs_Name attrs) = None → keepObject rc attrs = false).
  { unfold prebuiltNameOf, keepObject, checkPrebuilt.
    by destruct (Index (attrs_Name attrs) "/descriptors" <? 0)%Z. }
  split; [done|]. split; [|done].
  intros Hempty. destruct (prebuiltNameOf (attrs_Name attrs)) as [pre|] eqn:Hpre; [|by apply Hnone].
  apply (Hdeny pre ""); [done..|]. by destruct pre.
Qed.

(** ** More on the reconciliation pass *)

Section ReconcilerMore.

Variable Unmarshal : string → result CmdDescriptor.
Variable rangeOrder : gmap string string → list (string * string).
Variable completion : string → list nat.
Variable versionID : string.
Hypothesis rangeOrder_perm : ∀ m, rangeOrder m ≡ₚ map_to_list m.

Context {T : Type} `{ConfigMap T}.

Local Abbreviation Load' := (Load Unmarshal rangeOrder completion versionID).

(** When the source fails. An error of [Seqs] is returned with the store
    untouched. An error of [Bucket] or of [RuntimeConfigs] is returned
    after the deletions: the store has lost the names that are not
    fetched, keeps every other entry as it was, and has gained nothing. *)
Theorem Load_source_errors (c : ConfigMapLoader T) (force : bool) (e : error)
    (seqs : gmap string string) :
  (Seqs (cml_ConfigMap c) = Err e → Load' c force = (Err e, cml_ConfigStore c))
  ∧ (Seqs (cml_ConfigMap c) = Ok seqs →
     force = true ∨ reloadSet (cml_ConfigStore c) seqs ≠ ∅
     ∨ deleteSet (cml_ConfigStore c) seqs ≠ ∅ →
     Bucket (cml_ConfigMap c) = Err e
     ∨ (is_ok (Bucket (cml_ConfigMap c)) = true
        ∧ RuntimeConfigs (cml_ConfigMap c) = Err e) →
     (Load' c force).1 = Err e
     ∧ ∀ name,
         lastConfigs (Load' c force).2 !! name =
           match seqs !! name with
           | Some _ => lastConfigs (cml_ConfigStore c) !! name
           | None => None
           end).
Proof.
  split.
  - intros Hseqs. unfold Load. by rewrite Hseqs.
  - intros Hseqs Hchange Hfail.
    destruct (Load_paths Unmarshal rangeOrder completion versionID c force seqs Hseqs)
      as [(Hu & Hd & Hf & _)|[_ [(e' & Hcase & Heq)|(bucket & rcs & Hb & Hr & _)]]].
    + destruct Hchange as [?|[?|?]]; congruence.
    + assert (e' = e) as ->.
      { destruct Hcase as [?|[? ?]], Hfail as [?|[? ?]]; try congruence.
        - destruct (Bucket (cml_ConfigMap c)); simplify_eq; done.
        - destruct (Bucket (cml_ConfigMap c)); simplify_eq; done. }
      rewrite Heq. simpl. split; [done|]. intros name.
      rewrite deleteAll_lookup, deleteSet_eq.
      destruct (seqs !! name) as [seq|] eqn:Hs.
      * destruct (decide _) as [Hd|]; [|done].
        apply elem_of_difference in Hd as [_ Hd]. exfalso. apply Hd, elem_of_dom. by eauto.
      * destruct (decide _) as [|Hd]; [done|].
        apply not_elem_of_dom. intros Hin. apply Hd, elem_of_difference.
        split; [done|]. by apply not_elem_of_dom.
    + destruct Hfail as [?|[_ ?]]; congruence.
Qed.

Lemma rangeOrder_empty : rangeOrder ∅ = [].
Proof. apply Permutation_nil_r. by rewrite rangeOrder_perm, map_to_list_empty. Qed.

Lemma deleteAll_empty (store : ConfigStore) : deleteAll store ∅ = store.
Proof. unfold deleteAll. by rewrite set_fold_empty. Qed.

(** A forced pass over a store that is in step with the source returns
    the response of the store as it is, and does not change it. *)
Theorem Load_forced (c : ConfigMapLoader T) (seqs : gmap string string)
    (bucket : string) (rcs : gmap string RuntimeConfig) :
  Seqs (cml_ConfigMap c) = Ok seqs →
  Bucket (cml_ConfigMap c) = Ok bucket →
  RuntimeConfigs (cml_ConfigMap c) = Ok rcs →
  reloadSet (cml_ConfigStore c) seqs = ∅ →
  deleteSet (cml_ConfigStore c) seqs = ∅ →
  Load' c true
  = (Ok (ConfigStore_ConfigResp (cml_ConfigStore c) versionID), cml_ConfigStore c)
  ∧ Load' c false = (Err ErrNoUpdate, cml_ConfigStore c).
Proof.
  intros Hseqs Hb Hr Hu Hd. unfold Load. rewrite Hseqs, Hb, Hr.
  fold (reloadSet (cml_ConfigStore c) seqs). fold (deleteSet (cml_ConfigStore c) seqs).
  rewrite Hu, Hd, rangeOrder_empty, deleteAll_empty. simpl.
  by rewrite bool_decide_eq_true_2.
Qed.

(** After a pass that returned a response and skipped no marked runtime,
    the store is in step with the source: every fetched name reads its
    fetched token, every stored name is fetched, and the response is the
    one of the new store. *)
Theorem Load_converges (c : ConfigMapLoader T) (force : bool)
    (seqs : gmap string string) (resp : ConfigResp) :
  Seqs (cml_ConfigMap c) = Ok seqs →
  (Load' c force).1 = Ok resp →
  (∀ rcs name rt,
     RuntimeConfigs (cml_ConfigMap c) = Ok rcs →
     is_Some (reloadSet (cml_ConfigStore c) seqs !! name) →
     rcs !! name = Some rt → rc_ServiceAddr rt ≠ "") →
  resp = ConfigStore_ConfigResp (Load' c force).2 versionID
  ∧ (∀ name seq, seqs !! name = Some seq →
                 ConfigStore_Seq (Load' c force).2 name = seq)
  ∧ (∀ name, is_Some (lastConfigs (Load' c force).2 !! name) → is_Some (seqs !! name)).
Proof.
  intros Hseqs Hok Haddr.
  pose proof (λ name, Load_store_entry Unmarshal rangeOrder completion versionID
                        rangeOrder_perm c force seqs name Hseqs) as Hentry.
  destruct (Load_paths Unmarshal rangeOrder completion versionID c force seqs Hseqs)
    as [(_ & _ & _ & Heq)|[_ [(e & _ & Heq)|(bucket & rcs & _ & Hrcs & Heq)]]];
    try (rewrite Heq in Hok; discriminate).
  simpl in Heq.
  set (store := cml_ConfigStore c) in *.
  set (l := rangeOrder (reloadSet store seqs)) in *.
  set (store1 := deleteAll store (deleteSet store seqs)) in *.
  set (r := reloadLoop Unmarshal completion (cml_ConfigLoader c) bucket rcs l store1) in *.
  assert (Hdone : r.1 = None).
  { rewrite Heq in Hok. simpl in Hok. by destruct (r.1). }
  assert (Hst : (Load' c force).2 = r.2) by by rewrite Heq.
  rewrite Hst in Hentry |- *. split; [|split].
  - rewrite Heq, Hdone in Hok. simpl in Hok. by injection Hok as <-.
  - intros name seq Hs. rewrite Seq_lookup.
    destruct (reloadSet store seqs !! name) as [seq'|] eqn:Hmark.
    + assert (seq' = seq) as ->.
      { rewrite reloadSet_lookup, Hs in Hmark. simpl in Hmark.
        by destruct (decide _); simplify_eq. }
      assert (Hin : (name, seq) ∈ l).
      { by apply (rangeOrder_elem rangeOrder rangeOrder_perm). }
      destruct (rcs !! name) as [rt|] eqn:Hrt.
      2:{ destruct (reloadLoop_missing Unmarshal completion (cml_ConfigLoader c)
                      bucket rcs l store1 name seq Hin Hrt) as [e He].
          fold r in He. congruence. }
      destruct (reloadLoop_done Unmarshal completion (cml_ConfigLoader c)
                  bucket rcs l store1 name seq rt) as [confs Hconfs];
        [apply (rangeOrder_NoDup rangeOrder rangeOrder_perm)|done..| |].
      { apply (Haddr rcs name rt); [done| |done]. rewrite Hmark. by eauto. }
      fold r in Hconfs. by rewrite Hconfs.
    + destruct (proj2 (Hentry name)) as [Heq'|(? & ? & ? & _)]; [by eauto| |congruence].
      rewrite Heq', <- Seq_lookup.
      rewrite reloadSet_lookup, Hs in Hmark. simpl in Hmark.
      by destruct (decide (ConfigStore_Seq store name = seq)).
  - intros name Hsome. destruct (seqs !! name) eqn:Hs; [by eauto|].
    rewrite (proj1 (Hentry name) Hs) in Hsome. by destruct Hsome.
Qed.

(** Whatever the outcome of a pass, a fetched runtime that is not marked
    keeps its entry, token and records, and an entry that is not the old
    one holds the fetched token of a marked runtime. *)
Theorem Load_frame (c : ConfigMapLoader T) (force : bool)
    (seqs : gmap string string) (name : string) :
  Seqs (cml_ConfigMap c) = Ok seqs →
  (is_Some (seqs !! name) → reloadSet (cml_ConfigStore c) seqs !! name = None →
   lastConfigs (Load' c force).2 !! name = lastConfigs (cml_ConfigStore c) !! name)
  ∧ (∀ cs, lastConfigs (Load' c force).2 !! name = Some cs →
           lastConfigs (cml_ConfigStore c) !! name ≠ Some cs →
           seqs !! name = Some (cs_seq cs)
           ∧ reloadSet (cml_ConfigStore c) seqs !! name = Some (cs_seq cs)).
Proof.
  intros Hseqs.
  destruct (Load_store_entry Unmarshal rangeOrder completion versionID
              rangeOrder_perm c force seqs name Hseqs) as [Hgone Hkept].
  split.
  - intros Hs Hmark. destruct (Hkept Hs) as [?|(? & ? & ? & _)]; [done|congruence].
  - intros cs Hcs Hne. destruct (seqs !! name) as [seq|] eqn:Hs.
    + destruct Hkept as [Heq|(seq' & confs & Hmark & Heq)]; [by eauto|congruence|].
      rewrite Heq in Hcs. injection Hcs as <-. simpl. split; [|done].
      rewrite reloadSet_lookup, Hs in Hmark. simpl in Hmark.
      by destruct (decide _); simplify_eq.
    + rewrite Hgone in Hcs; done.
Qed.

End ReconcilerMore.

(** gcc is stored and no longer fetched, and the bucket cannot be
    resolved: the pass fails after it has dropped gcc. *)
Lemma Load_source_errors_demo :
  (Load demoUnmarshal rangeSorted inOrder "v1"
        {| cml_ConfigMap := bucketlessSource {[ "clang" := "7" ]};
           cml_ConfigLoader := demoLoader; cml_ConfigStore := gccStore |} false).1
  = Err (ErrExternal "not gs: URI")
  ∧ lastConfigs
      (Load demoUnmarshal rangeSorted inOrder "v1"
            {| cml_ConfigMap := bucketlessSource {[ "clang" := "7" ]};
               cml_ConfigLoader := demoLoader; cml_ConfigStore := gccStore |} false).2
      !! "gcc" = None.
Proof.
  destruct (Load_source_errors demoUnmarshal rangeSorted inOrder "v1"
              {| cml_ConfigMap := bucketlessSource {[ "clang" := "7" ]};
                 cml_ConfigLoader := demoLoader; cml_ConfigStore := gccStore |}
              false (ErrExternal "not gs: URI") {[ "clang" := "7" ]}) as [_ Hlate].
  destruct Hlate as [Herr Hstore].
  - reflexivity.
  - right. left. intros Hempty.
    assert (Hmark : reloadSet gccStore {[ "clang" := "7" ]} !! "clang" = Some "7")
      by by vm_compute.
    simpl in Hempty. rewrite Hempty in Hmark. by rewrite lookup_empty in Hmark.
  - by left.
  - split; [exact Herr|]. rewrite (Hstore "gcc"). by vm_compute.
Defined.

Lemma Load_forced_demo :
  Load demoUnmarshal rangeSorted inOrder "v1"
       (demoReconciler {[ "clang" := "3" ]} "addr" staleStore) true
  = (Ok (ConfigStore_ConfigResp staleStore "v1"), staleStore)
  ∧ Load demoUnmarshal rangeSorted inOrder "v1"
         (demoReconciler {[ "clang" := "3" ]} "addr" staleStore) false
    = (Err ErrNoUpdate, staleStore).
Proof.
  apply (Load_forced demoUnmarshal rangeSorted inOrder "v1" rangeSorted_perm
           (demoReconciler {[ "clang" := "3" ]} "addr" staleStore)
           {[ "clang" := "3" ]} "bkt" {[ "clang" := demoRuntime "addr" ]});
    by vm_compute.
Defined.

Lemma Load_converges_demo :
  is_ok (Load demoUnmarshal rangeSorted inOrder "v1"
              (demoReconciler {[ "clang" := "7" ]} "addr" staleStore) false).1 = true
  ∧ ConfigStore_Seq
      (Load demoUnmarshal rangeSorted inOrder "v1"
            (demoReconciler {[ "clang" := "7" ]} "addr" staleStore) false).2 "clang"
    = "7".
Proof.
  split; [by vm_compute|].
  destruct (Load_converges demoUnmarshal rangeSorted inOrder "v1" rangeSorted_perm
              (demoReconciler {[ "clang" := "7" ]} "addr" staleStore) false
              {[ "clang" := "7" ]}
              (ConfigStore_ConfigResp
                 (Load demoUnmarshal rangeSorted inOrder "v1"
                       (demoReconciler {[ "clang" := "7" ]} "addr" staleStore) false).2
                 "v1"))
    as (_ & Htok & _).
  - reflexivity.
  - by vm_compute.
  - intros rcs name rt [= <-] _ Hrt.
    apply lookup_singleton_Some in Hrt as [_ <-]. done.
  - apply Htok. by vm_compute.
Defined.

Lemma Load_frame_demo :
  lastConfigs
    (Load demoUnmarshal rangeSorted inOrder "v1"
          (demoReconciler {[ "clang" := "3" ]} "addr" staleStore) true).2 !! "clang"
  = Some {| cs_seq := "3"; cs_configs := [] |}.
Proof.
  destruct (Load_frame demoUnmarshal rangeSorted inOrder "v1" rangeSorted_perm
              (demoReconciler {[ "clang" := "3" ]} "addr" staleStore) true
              {[ "clang" := "3" ]} "clang") as [Hkeep _].
  - reflexivity.
  - rewrite Hkeep; [by vm_compute| |by vm_compute]. exists "3". by vm_compute.
Defined.

(** ** The order in which Go ranges over the updated map *)

Section RangeOrder.

Variable Unmarshal : string → result CmdDescriptor.
Variable completion : string → list nat.
Variable versionID : string.
Variables (loader : ConfigLoader) (bucket : string).
Variable runtimeConfigs : gmap string RuntimeConfig.

Local Abbreviation loop := (reloadLoop Unmarshal completion loader bucket runtimeConfigs).
Local Abbreviation after :=
  (entryAfter Unmarshal completion loader bucket runtimeConfigs).

Lemma reloadLoop_end_entries (l : list (string * string)) (store : ConfigStore)
    (name : string) :
  NoDup l.*1 → (loop l store).1 = None →
  lastConfigs (loop l store).2 !! name
  = after ((list_to_map l : gmap string string) !! name) (lastConfigs store !! name) name.
Proof.
  revert store. induction l as [|[n s] l IH]; intros store Hnd Hok; [done|].
  rewrite fmap_cons in Hnd. apply NoDup_cons in Hnd as [Hn Hnd].
  assert (Hrest : (list_to_map l : gmap string string) !! n = None).
  { by apply not_elem_of_list_to_map_1. }
  simpl in Hok |- *.
  destruct (runtimeConfigs !! n) as [rt|] eqn:Hrt; [|done].
  destruct (String.eqb (rc_ServiceAddr rt) "") eqn:Haddr.
  - rewrite (IH store Hnd Hok). destruct (decide (n = name)) as [->|Hne].
    + rewrite lookup_insert_eq, Hrest. unfold entryAfter. by rewrite Hrt, Haddr.
    + by rewrite lookup_insert_ne.
  - destruct (ConfigLoader_Load _ _ _ _ _) as [confs|e] eqn:Hload; [|done].
    rewrite (IH _ Hnd Hok). simpl. destruct (decide (n = name)) as [->|Hne].
    + rewrite !lookup_insert_eq, Hrest. unfold entryAfter. by rewrite Hrt, Haddr, Hload.
    + by rewrite !lookup_insert_ne.
Qed.

Lemma reloadLoop_end_iff (l : list (string * string)) (store : ConfigStore) :
  (loop l store).1 = None ↔
  ∀ name seq, (name, seq) ∈ l →
    ∃ rt, runtimeConfigs !! name = Some rt
          ∧ (rc_ServiceAddr rt = ""
             ∨ is_ok (ConfigLoader_Load Unmarshal loader
                        ("gs://" +:+ bucket +:+ "/" +:+ name) rt
                        (completion ("gs://" +:+ bucket +:+ "/" +:+ name))) = true).
Proof.
  split; [|apply reloadLoop_succeeds].
  revert store. induction l as [|[n s] l IH]; intros store Hok name seq Hin.
  { by apply elem_of_nil in Hin. }
  simpl in Hok.
  destruct (runtimeConfigs !! n) as [rt|] eqn:Hrt; [|done].
  destruct (String.eqb (rc_ServiceAddr rt) "") eqn:Haddr.
  - apply elem_of_cons in Hin as [[= -> ->]|Hin]; [|by eapply IH].
    exists rt. split; [done|]. left. by apply String.eqb_eq.
  - destruct (ConfigLoader_Load _ _ _ _ _) as [confs|e] eqn:Hload; [|done].
    apply elem_of_cons in Hin as [[= -> ->]|Hin]; [|by eapply IH].
    exists rt. split; [done|]. right. by rewrite Hload.
Qed.

(** Two orders of visiting the same map of marked runtimes: the loop runs
    to its end in one exactly when it does in the other, and then it
    leaves the same store. *)
Lemma reloadLoop_order (l1 l2 : list (string * string)) (m : gmap string string)
    (store : ConfigStore) :
  l1 ≡ₚ map_to_list m → l2 ≡ₚ map_to_list m →
  ((loop l1 store).1 = None ↔ (loop l2 store).1 = None)
  ∧ ((loop l1 store).1 = None → (loop l1 store).2 = (loop l2 store).2).
Proof.
  intros H1 H2.
  assert (Hiff : (loop l1 store).1 = None ↔ (loop l2 store).1 = None).
  { rewrite !reloadLoop_end_iff. by setoid_rewrite H1; setoid_rewrite H2. }
  split; [done|]. intros Hok1. pose proof (proj1 Hiff Hok1) as Hok2.
  assert (Hnd : ∀ l, l ≡ₚ map_to_list m → NoDup l.*1).
  { intros l ->. apply NoDup_fst_map_to_list. }
  assert (Hmap : ∀ l, l ≡ₚ map_to_list m → (list_to_map l : gmap string string) = m).
  { intros l Hl. rewrite <- (list_to_map_to_list m). apply list_to_map_proper; [|done].
    by apply Hnd. }
  assert (Heq : lastConfigs (loop l1 store).2 = lastConfigs (loop l2 store).2).
  { apply map_eq. intros name.
    rewrite !reloadLoop_end_entries by (by auto). by rewrite !Hmap. }
  destruct (loop l1 store).2, (loop l2 store).2. simpl in Heq. by subst.
Qed.

End RangeOrder.

(** The outcome of a pass that returns a response does not depend on the
    order in which Go ranges over the updated map: under any two orders
    the pass returns a response in both or in neither, and when it does,
    the response and the store are the same. *)
Theorem Load_range_order (Unmarshal : string → result CmdDescriptor)
    (order1 order2 : gmap string string → list (string * string))
    (completion : string → list nat) (versionID : string)
    {T : Type} `{ConfigMap T} (c : ConfigMapLoader T) (force : bool) :
  (∀ m, order1 m ≡ₚ map_to_list m) →
  (∀ m, order2 m ≡ₚ map_to_list m) →
  is_ok (Load Unmarshal order1 completion versionID c force).1
  = is_ok (Load Unmarshal order2 completion versionID c force).1
  ∧ (is_ok (Load Unmarshal order1 completion versionID c force).1 = true →
     Load Unmarshal order1 completion versionID c force
     = Load Unmarshal order2 completion versionID c force).
Proof.
  intros H1 H2. unfold Load.
  destruct (Seqs (cml_ConfigMap c)) as [seqs|e]; [|done].
  destruct (bool_decide _ && negb force); [done|].
  destruct (Bucket (cml_ConfigMap c)) as [bucket|e]; [|done].
  destruct (RuntimeConfigs (cml_ConfigMap c)) as [rcs|e]; [|done].
  set (m := (diffSeqs (cml_ConfigStore c) seqs _).1).
  set (store1 := deleteAll _ _).
  destruct (reloadLoop_order Unmarshal completion (cml_ConfigLoader c) bucket rcs
              (order1 m) (order2 m) m store1 (H1 m) (H2 m)) as [Hiff Hsame].
  destruct (reloadLoop Unmarshal completion (cml_ConfigLoader c) bucket rcs (order1 m) store1)
    as [[e1|] s1] eqn:E1;
  destruct (reloadLoop Unmarshal completion (cml_ConfigLoader c) bucket rcs (order2 m) store1)
    as [[e2|] s2] eqn:E2; simpl in *.
  - done.
  - destruct Hiff as [_ Hiff]. by specialize (Hiff eq_refl).
  - destruct Hiff as [Hiff _]. by specialize (Hiff eq_refl).
  - split; [done|]. intros _. by rewrite (Hsame eq_refl).
Qed.

Lemma Load_range_order_demo :
  Load demoUnmarshal rangeSorted inOrder "v1"
       (demoReconciler {[ "clang" := "7" ]} "addr" staleStore) false
  = Load demoUnmarshal (λ m, reverse (map_to_list m)) inOrder "v1"
         (demoReconciler {[ "clang" := "7" ]} "addr" staleStore) false.
Proof.
  apply (Load_range_order demoUnmarshal rangeSorted (λ m, reverse (map_to_list m))
           inOrder "v1" (demoReconciler {[ "clang" := "7" ]} "addr" staleStore) false).
  - intros m. reflexivity.
  - intros m. apply reverse_Permutation.
  - by vm_compute.
Defined.

(** ** cloudStorageNotification *)

Lemma firstTopic_Some (bucket : string) (ns : list (string * Notification))
    (n : Notification) :
  firstTopic bucket ns = Some n → n_TopicID n = bucket ∧ ∃ k, (k, n) ∈ ns.
Proof.
  induction ns as [|[k n'] ns IH]; simpl; [done|].
  destruct (String.eqb (n_TopicID n') bucket) eqn:Htopic.
  - intros [= <-]. apply String.eqb_eq in Htopic. split; [done|].
    exists k. apply elem_of_cons. by left.
  - intros Hrest. destruct (IH Hrest) as [? [k' ?]]. split; [done|].
    exists k'. apply elem_of_cons. by right.
Qed.

Lemma firstTopic_None (bucket : string) (ns : list (string * Notification)) :
  firstTopic bucket ns = None → ∀ k n, (k, n) ∈ ns → n_TopicID n ≠ bucket.
Proof.
  induction ns as [|[k' n'] ns IH]; simpl.
  - intros _ k n Hin. by apply elem_of_nil in Hin.
  - destruct (String.eqb (n_TopicID n') bucket) eqn:Htopic; [done|].
    intros Hrest k n [[= -> ->]|Hin]%elem_of_cons; [by apply String.eqb_neq|by eapply IH].
Qed.

(** [cloudStorageNotification] passes on the error of the listing;
    otherwise it returns a notification of the bucket whose topic is
    named like the bucket when there is one, and fails with "not found"
    exactly when there is none. *)
Theorem cloudStorageNotification_default_topic
    (notifications : result (gmap string Notification))
    (order : gmap string Notification → list (string * Notification))
    (bucket : string) :
  (∀ nm, order nm ≡ₚ map_to_list nm) →
  match notifications with
  | Err e => cloudStorageNotification notifications order bucket
             = inl (NotificationsFailed e)
  | Ok nm =>
      (∃ n k, cloudStorageNotification notifications order bucket = inr n
              ∧ nm !! k = Some n ∧ n_TopicID n = bucket)
      ∨ (cloudStorageNotification notifications order bucket
         = inl (NotificationNotFound bucket nm)
         ∧ ∀ k n, nm !! k = Some n → n_TopicID n ≠ bucket)
  end.
Proof.
  intros Horder. unfold cloudStorageNotification.
  destruct notifications as [nm|e]; [|done].
  destruct (firstTopic bucket (order nm)) as [n|] eqn:Hfirst.
  - left. apply firstTopic_Some in Hfirst as [Htopic [k Hin]].
    exists n, k. split; [done|]. split; [|done].
    rewrite Horder in Hin. by apply elem_of_map_to_list in Hin.
  - right. split; [done|]. intros k n Hk.
    apply (firstTopic_None _ _ Hfirst k). rewrite Horder. by apply elem_of_map_to_list.
Qed.

Lemma cloudStorageNotification_default_topic_demo :
  cloudStorageNotification
    (Ok {[ "1" := {| n_ID := "1"; n_TopicProjectID := "proj"; n_TopicID := "other" |};
           "2" := {| n_ID := "2"; n_TopicProjectID := "proj"; n_TopicID := "bkt" |} ]})
    map_to_list "bkt"
  = inr {| n_ID := "2"; n_TopicProjectID := "proj"; n_TopicID := "bkt" |}.
Proof.
  destruct (cloudStorageNotification_default_topic
              (Ok {[ "1" := {| n_ID := "1"; n_TopicProjectID := "proj";
                               n_TopicID := "other" |};
                     "2" := {| n_ID := "2"; n_TopicProjectID := "proj";
                               n_TopicID := "bkt" |} ]})
              map_to_list "bkt") as [(n & k & Heq & _)|[_ Hnone]].
  - done.
  - by vm_compute.
  - exfalso. by apply (Hnone "2" {| n_ID := "2"; n_TopicProjectID := "proj";
                                      n_TopicID := "bkt" |}).
Defined.

(** ** The push watcher *)

Lemma drain_acks (sels : list selected) (acked : list Message) :
  (drain sels acked).1.2 ++ receivedOf (drain sels acked).2
  = acked ++ receivedOf sels.
Proof.
  revert acked. induction sels as [|[msg| |err|] sels IH]; intros acked; simpl;
    try done.
  rewrite IH. by rewrite <- app_assoc.
Qed.

(** [Next] acknowledges every message it takes from the channel, once and
    in order, whether the message is relevant or not, and nothing else.
    It returns nil, or trips over the nil message of a closed channel
    while draining, only after it has taken a finalize event of an
    object whose base name is "seq"; without such a message among the
    selections it keeps waiting or returns the closing of the channel or
    the error of the context. *)
Theorem Next_acks_and_wakes (sels : list selected) (acked : list Message) :
  (Next sels acked).1.2 ++ receivedOf (Next sels acked).2 = acked ++ receivedOf sels
  ∧ ((Next sels acked).1.1 = NextNil ∨ (Next sels acked).1.1 = NextNilMessage →
     ∃ msg, msg ∈ receivedOf sels ∧ seqFinalized msg = true)
  ∧ ((∀ msg, msg ∈ receivedOf sels → seqFinalized msg = false) →
     (Next sels acked).1.1 = NextWaiting
     ∨ (Next sels acked).1.1 = NextWatcherClosed
     ∨ ∃ err, (Next sels acked).1.1 = NextContext err).
Proof.
  assert (Hwake : ∀ sels acked,
     (Next sels acked).1.1 = NextNil ∨ (Next sels acked).1.1 = NextNilMessage →
     ∃ msg, msg ∈ receivedOf sels ∧ seqFinalized msg = true).
  { clear. intros sels. induction sels as [|[msg| |err|] sels IH]; intros acked; simpl.
    - by intros [?|?].
    - destruct (seqFinalized msg) eqn:Hmsg.
      + intros _. exists msg. split; [apply elem_of_cons; by left|done].
      + intros Hr. destruct (IH _ Hr) as (msg' & Hin & Hfin).
        exists msg'. split; [apply elem_of_cons; by right|done].
    - by intros [?|?].
    - by intros [?|?].
    - apply IH. }
  split; [|split].
  - revert acked. induction sels as [|[msg| |err|] sels IH]; intros acked; simpl;
      try done.
    destruct (seqFinalized msg).
    + rewrite drain_acks. by rewrite <- app_assoc.
    + rewrite IH. by rewrite <- app_assoc.
  - apply Hwake.
  - intros Hnone.
    destruct ((Next sels acked).1.1) eqn:Hr; eauto.
    + destruct (Hwake sels acked) as (msg & Hin & Hfin); [by left|].
      rewrite (Hnone msg Hin) in Hfin. done.
    + destruct (Hwake sels acked) as (msg & Hin & Hfin); [by right|].
      rewrite (Hnone msg Hin) in Hfin. done.
Qed.

(** A burst is coalesced into one wake: after irrelevant messages, a
    finalize event of a seq object and the messages that are ready behind
    it, [Next] returns nil once, having acknowledged all of them. *)
Theorem Next_coalesces (before burst : list Message) (msg : Message)
    (rest : list selected) (acked : list Message) :
  (∀ m, m ∈ before → seqFinalized m = false) →
  seqFinalized msg = true →
  Next ((Received <$> before) ++ Received msg :: (Received <$> burst)
          ++ NothingReady :: rest) acked
  = (NextNil, acked ++ before ++ msg :: burst, rest).
Proof.
  intros Hbefore Hmsg.
  assert (Hd : ∀ acc, drain ((Received <$> burst) ++ NothingReady :: rest) acc
                      = (NextNil, acc ++ burst, rest)).
  { clear. induction burst as [|b burst IH]; intros acc; simpl.
    - by rewrite app_nil_r.
    - rewrite IH. by rewrite <- app_assoc. }
  revert acked. induction before as [|m before IH]; intros acked; simpl.
  - rewrite Hmsg, Hd. by rewrite <- app_assoc.
  - rewrite (Hbefore m) by (apply elem_of_cons; by left).
    rewrite IH.
    + by rewrite <- app_assoc.
    + intros m' Hin. apply Hbefore, elem_of_cons. by right.
Qed.

Lemma Next_coalesces_demo :
  Next [Received {| msg_ID := "1";
                    msg_Attributes := {[ "eventType" := "OBJECT_DELETE";
                                         "objectId" := "clang/seq" ]} |};
        Received {| msg_ID := "2";
                    msg_Attributes := {[ "eventType" := "OBJECT_FINALIZE";
                                         "objectId" := "clang/seq" ]} |};
        Received {| msg_ID := "3";
                    msg_Attributes := {[ "eventType" := "OBJECT_FINALIZE";
                                         "objectId" := "gcc/seq" ]} |};
        NothingReady] []
  = (NextNil,
     [ {| msg_ID := "1";
          msg_Attributes := {[ "eventType" := "OBJECT_DELETE";
                               "objectId" := "clang/seq" ]} |};
       {| msg_ID := "2";
          msg_Attributes := {[ "eventType" := "OBJECT_FINALIZE";
                               "objectId" := "clang/seq" ]} |};
       {| msg_ID := "3";
          msg_Attributes := {[ "eventType" := "OBJECT_FINALIZE";
                               "objectId" := "gcc/seq" ]} |} ],
     []).
Proof.
  apply (Next_coalesces
           [ {| msg_ID := "1";
                msg_Attributes := {[ "eventType" := "OBJECT_DELETE";
                                     "objectId" := "clang/seq" ]} |} ]
           [ {| msg_ID := "3";
                msg_Attributes := {[ "eventType" := "OBJECT_FINALIZE";
                                     "objectId" := "gcc/seq" ]} |} ]
           {| msg_ID := "2";
              msg_Attributes := {[ "eventType" := "OBJECT_FINALIZE";
                                   "objectId" := "clang/seq" ]} |}
           [] []).
  - intros m Hm. apply list_elem_of_singleton in Hm as ->. by vm_compute.
  - by vm_compute.
Defined.

(** ** Blank deny-list entries, a missing bucket, and the proxy's config file *)

Lemma selectorHit_blank (s sel : Selector) :
  blankSelector s = true → selectorHit s sel = None.
Proof.
  unfold blankSelector, selectorHit, nonempty.
  intros [[[Hn Hv]%andb_true_iff Ht]%andb_true_iff Hh]%andb_true_iff.
  by rewrite Hn, Hv, Ht, Hh.
Qed.

(** Deny-list entries with no field set are ignored: taking them off the
    list changes no answer of [checkSelector], error included; and with
    an empty deny-list only a descriptor without selector is refused. *)
Theorem checkSelector_blank_entries (rc : RuntimeConfig) (sel : option Selector) :
  checkSelector
    (withDisallowedCommands rc
       (List.filter (λ s, negb (blankSelector s)) (rc_DisallowedCommands rc))) sel
  = checkSelector rc sel
  ∧ (rc_DisallowedCommands rc = [] →
     checkSelector rc sel = match sel with
                            | Some _ => None
                            | None => Some (Errorf "no selector specified" [])
                            end).
Proof.
  split.
  - destruct sel as [sel|]; [|done]. simpl.
    induction (rc_DisallowedCommands rc) as [|s ss IH]; [done|]. simpl.
    destruct (blankSelector s) eqn:Hblank; simpl.
    + by rewrite (selectorHit_blank s sel Hblank).
    + by rewrite IH.
  - intros Hnil. unfold checkSelector. rewrite Hnil. by destruct sel.
Qed.

(** A bucket the client has no handle for is not treated like a missing
    seq object: [Seqs] fails on the first listed runtime, and returns the
    empty map only when no runtime is listed; [loadConfigs] fails before
    it lists anything. *)
Theorem missing_bucket_is_fatal (Unmarshal : string → result CmdDescriptor)
    (c : ConfigMapBucket) (bucket rest : string) (cm : ConfigMapPb)
    (rc : RuntimeConfig) (platform : RemoteexecPlatform) (parallel : bool)
    (sched : list nat) :
  splitGCSPath (URI c) = Ok (bucket, rest) →
  cfgMap c = Ok cm →
  hasBucket (StorageClient c) bucket = false →
  Seqs c = match cm_Runtimes cm with
           | [] => Ok ∅
           | _ :: _ => Err (Errorf "could not find bucket %s" [ArgS bucket])
           end
  ∧ loadConfigs Unmarshal (StorageClient c) (URI c) rc platform parallel sched
    = Err (Errorf "could not find storage bucket %s" [ArgS bucket]).
Proof.
  intros Huri Hcm Hbkt. split.
  - simpl. unfold ConfigMapBucket_Seqs. rewrite Huri, Hcm.
    destruct (cm_Runtimes cm) as [|r runtimes]; [done|]. simpl.
    unfold storageReadAll. by rewrite Hbkt.
  - unfold loadConfigs. by rewrite Huri, Hbkt.
Qed.

Lemma missing_bucket_is_fatal_demo :
  Seqs {| URI := "gs://elsewhere/"; cfgMap := cfgMap demoBucket;
          StorageClient := demoClient; RemoteexecAddr := "" |}
  = Err (Errorf "could not find bucket %s" [ArgS "elsewhere"]).
Proof.
  destruct (missing_bucket_is_fatal demoUnmarshal
              {| URI := "gs://elsewhere/"; cfgMap := cfgMap demoBucket;
                 StorageClient := demoClient; RemoteexecAddr := "" |}
              "elsewhere" "" {| cm_Runtimes := [demoRuntime "addr"; gccRuntime] |}
              (demoRuntime "addr") demoPlatform true [])
    as [Hseqs _]; [reflexivity..|].
  exact Hseqs.
Defined.

(** [readConfigResp] passes on the error of reading or of parsing the
    file. Otherwise it returns the parsed response with the same version
    and as many configs, in the same order; every config has the
    remoteexec address as its target and a [BuildInfo], the one of the
    file when it had one; the other fields are the file's. Fixing a fixed
    config changes nothing. *)
Theorem readConfigResp_targets (readFile : result string)
    (unmarshal : string → result proxyConfigResp) (remoteexecAddr : string) :
  match readFile with
  | Err e => readConfigResp readFile unmarshal remoteexecAddr = Err e
  | Ok b =>
      match unmarshal b with
      | Err e => readConfigResp readFile unmarshal remoteexecAddr = Err e
      | Ok parsed =>
          ∃ resp,
            readConfigResp readFile unmarshal remoteexecAddr = Ok resp
            ∧ pr_VersionId resp = pr_VersionId parsed
            ∧ length (pr_Configs resp) = length (pr_Configs parsed)
            ∧ (∀ i c, pr_Configs resp !! i = Some c →
                 pc_Target c = Some remoteexecAddr
                 ∧ is_Some (pc_BuildInfo c)
                 ∧ fixTarget remoteexecAddr c = c
                 ∧ ∃ c0, pr_Configs parsed !! i = Some c0
                         ∧ (is_Some (pc_BuildInfo c0) → pc_BuildInfo c = pc_BuildInfo c0)
                         ∧ pc_CmdDescriptor c = pc_CmdDescriptor c0
                         ∧ pc_RemoteexecPlatform c = pc_RemoteexecPlatform c0
                         ∧ pc_Dimensions c = pc_Dimensions c0
                         ∧ pc_Acl c = pc_Acl c0)
      end
  end.
Proof.
  unfold readConfigResp. destruct readFile as [b|e]; [|done].
  destruct (unmarshal b) as [parsed|e]; [|done].
  eexists. split; [done|]. simpl. split; [done|]. split; [by rewrite length_fmap|].
  intros i c Hc. rewrite list_lookup_fmap in Hc.
  destruct (pr_Configs parsed !! i) as [c0|]; [|done]. injection Hc as <-.
  split; [done|]. split; [simpl; destruct (pc_BuildInfo c0); by eauto|].
  split; [unfold fixTarget; simpl; by destruct (pc_BuildInfo c0)|].
  exists c0. split; [done|]. split; [|done].
  simpl. by intros [bi ->].
Qed.

(** The README is not fetched: rewriting it changes nothing. *)
Lemma loadConfigs_reads_survivors_only_demo :
  loadConfigs demoUnmarshal demoClient "gs://bkt/clang" (demoRuntime "addr")
              demoPlatform true lastFirst
  = loadConfigs demoUnmarshal rewrittenClient "gs://bkt/clang" (demoRuntime "addr")
                demoPlatform true lastFirst.
Proof.
  apply (loadConfigs_reads_survivors_only demoUnmarshal "gs://bkt/clang"
           (demoRuntime "addr") demoPlatform demoClient rewrittenClient true lastFirst).
  - reflexivity.
  - intros obj. reflexivity.
  - intros attrs Hin. rewrite demo_attrsList in Hin by done.
    apply list_elem_of_In in Hin. simpl in Hin.
    destruct Hin as [<-|[<-|[<-|[]]]]; reflexivity.
Defined.
